(** * simsopt: coils, currents, the squared-flux objective and filament rotations

    A shallow embedding of

      - [src/simsopt/field/coil.py]          (module [coil]),
      - [src/simsopt/objectives/fluxobjective.py] (module [fluxobjective]),
      - [src/simsopt/geo/multifilament.py]   (module [multifilament]),

    followed by the properties that the specification states about them.

    Conventions of the embedding.

    - Python numbers.  The arithmetic on Python floats is kept abstract: a
      [Scalar] packs a carrier with the operations the three source files
      use.  Every definition is written with these operations in the order
      in which Python evaluates them.  A statement that needs algebra says so
      through the hypothesis [ring_theory ...] (exact arithmetic, as in the
      real numbers [RScalar]); a statement without that hypothesis holds for
      every interpretation of the operations.  The integers [ZScalar] are a
      second instance, on which the definitions evaluate.
    - numpy arrays.  A one-dimensional array is a [list float]; an array of
      shape [(m, 3)] is a [list vec3]; a matrix is the list of its rows; an
      array over the quadrature points of a surface, of shape
      [(nphi, ntheta)] or [(nphi, ntheta, 3)], is its shape together with
      its entries in row-major order, and the operators on such arrays
      broadcast as numpy's do.
    - Objects.  An object that owns degrees of freedom is named by its
      identity, a [node_id]; the dofs themselves live in a store that the
      getters read.  An object that only refers to other objects (a
      [ScaledCurrent], a [CurrentSum], a [RotatedCurve], a [Coil]) is the
      constructor applied to the objects it refers to. *)

From Stdlib Require Import ZArith List Ring Reals Lra.
From stdpp Require Import base option list gmap fin_maps.
Import ListNotations.

Local Open Scope Z_scope.
Local Open Scope list_scope.

(** ** Python floats *)

Class Scalar : Type := {
  float : Type;
  f_zero : float;
  f_one : float;
  f_add : float -> float -> float;
  f_mul : float -> float -> float;
  f_sub : float -> float -> float;
  f_opp : float -> float;
  f_div : float -> float -> float;
  f_sqrt : float -> float;
  f_sin : float -> float;
  f_cos : float -> float;
  f_pi : float;
  (** the conversion of a Python [int] met in a float expression *)
  f_of_int : Z -> float
}.

(** The integers, with truncating division and integer square root, are a
    [Scalar] on which every definition below evaluates. *)
Definition ZScalar : Scalar := {|
  float := Z;
  f_zero := 0;
  f_one := 1;
  f_add := Z.add;
  f_mul := Z.mul;
  f_sub := Z.sub;
  f_opp := Z.opp;
  f_div := Z.div;
  f_sqrt := Z.sqrt;
  f_sin := fun _ => 0;
  f_cos := fun _ => 1;
  f_pi := 3;
  f_of_int := fun z => z
|}.

(** The real numbers, with the real square root, sine, cosine and pi: the
    reading of Python's floats under which arithmetic is exact. *)
Definition RScalar : Scalar := {|
  float := R;
  f_zero := 0%R;
  f_one := 1%R;
  f_add := Rplus;
  f_mul := Rmult;
  f_sub := Rminus;
  f_opp := Ropp;
  f_div := Rdiv;
  f_sqrt := sqrt;
  f_sin := sin;
  f_cos := cos;
  f_pi := PI;
  f_of_int := IZR
|}.

(** Identity of a Python object that owns degrees of freedom. *)
Abbreviation node_id := positive.

(** Failures.  [AssertionError] and [ValueError] are the Python exceptions
    that the embedded code raises; [DimensionMismatch] is the error kind of
    section 7 of the specification, which no statement of the three source
    files raises. *)
Inductive exn : Type :=
| AssertionError
| ValueError
| DimensionMismatch.

(** [range(0, n)] for a Python [int] [n]: empty when [n <= 0]. *)
Definition range (n : Z) : list Z := map Z.of_nat (seq 0 (Z.to_nat n)).

(** [int(b)] for a Python [bool]. *)
Definition int_of_bool (b : bool) : Z := if b then 1 else 0.

Section Arrays.
Context {S : Scalar}.

(** A point of space, one row of an [(m, 3)] array. *)
Definition vec3 : Type := float * float * float.

(** [np.zeros((n, ))] *)
Definition zeros (n : nat) : list float := repeat f_zero n.

(** [u + v] on one-dimensional arrays of one shape. *)
Definition array_add (u v : list float) : list float := zip_with f_add u v.

(** [k * u] for a number [k] and a one-dimensional array [u]. *)
Definition array_scale (k : float) (u : list float) : list float :=
  map (f_mul k) u.

(** [k * v] for a number [k] and an [(m, 3)] array. *)
Definition vec3_scale (k : float) (p : vec3) : vec3 :=
  match p with (x, y, z) => (f_mul k x, f_mul k y, f_mul k z) end.

Definition vec3_add (p q : vec3) : vec3 :=
  match p, q with
  | (x, y, z), (x', y', z') => (f_add x x', f_add y y', f_add z z')
  end.

Definition vec3_zero : vec3 := (f_zero, f_zero, f_zero).

(** [v * k] and [v / k], the array on the left. *)
Definition vec3_mul_r (p : vec3) (k : float) : vec3 :=
  match p with (x, y, z) => (f_mul x k, f_mul y k, f_mul z k) end.

Definition vec3_div_r (p : vec3) (k : float) : vec3 :=
  match p with (x, y, z) => (f_div x k, f_div y k, f_div z k) end.

(** [np.sum(b * u, axis=-1)] on rows of three entries. *)
Definition vec3_dot (b u : vec3) : float :=
  match b, u with
  | (x, y, z), (x', y', z') =>
      f_add (f_add (f_mul x x') (f_mul y y')) (f_mul z z')
  end.

(** [np.linalg.norm(n, axis=-1)] on rows of three entries. *)
Definition vec3_norm (p : vec3) : float :=
  match p with
  | (x, y, z) => f_sqrt (f_add (f_add (f_mul x x) (f_mul y y)) (f_mul z z))
  end.

(** [np.zeros_like(v)] *)
Definition zeros_like (v : list vec3) : list vec3 := map (fun _ => vec3_zero) v.

(** ** Derivative maps *)

(** Modelled from the spec: the class [Derivative] of
    [simsopt._core.derivative], which is not part of the sources at hand.
    Section 3: a mapping from node identity to a dense gradient vector;
    accumulating two Derivative maps sums entries key-wise, inserting
    missing keys with zero-initialized vectors. *)
Definition deriv_add (x y : gmap node_id (list float)) : gmap node_id (list float) :=
  merge (fun a b =>
           match a, b with
           | Some u, Some v => Some (array_add u v)
           | Some u, None => Some (array_add u (zeros (length u)))
           | None, Some v => Some (array_add (zeros (length v)) v)
           | None, None => None
           end) x y.

(** Modelled from the spec: [k * d] for a number [k] and a Derivative
    [d] scales every entry (sections 4.3 and 4.7). *)
Definition deriv_scale (k : float) (x : gmap node_id (list float)) : gmap node_id (list float) :=
  array_scale k <$> x.
End Arrays.

Abbreviation Derivative := (gmap node_id (list float)).

(** ** [simsopt/field/coil.py] *)
Module coil.
Section WithScalar.
Context {S : Scalar}.

(** The classes derived from [CurrentBase].  A [Current] owns the scalar
    dof; the two others hold references to the nodes they were built
    from. *)
Inductive CurrentBase : Type :=
| Current (self : node_id)
| ScaledCurrent (current_to_scale : CurrentBase) (scale : float)
| CurrentSum (current_a current_b : CurrentBase).

(** [CurrentBase.__mul__] and [__rmul__]; the assertion that [other] is a
    number is the type of [other]. *)
Definition mul (self : CurrentBase) (other : float) : CurrentBase :=
  ScaledCurrent self other.

Definition rmul (self : CurrentBase) (other : float) : CurrentBase :=
  ScaledCurrent self other.

(** [CurrentBase.__neg__]; [-1.] is the negated literal [1.]. *)
Definition neg (self : CurrentBase) : CurrentBase :=
  ScaledCurrent self (f_opp f_one).

(** [CurrentBase.__add__] *)
Definition add (self other : CurrentBase) : CurrentBase :=
  CurrentSum self other.

(** [CurrentBase.__sub__] *)
Definition sub (self other : CurrentBase) : CurrentBase :=
  CurrentSum self (neg other).

(** [CurrentBase.__radd__] on a Python [int] on the left.  With a number
    other than zero the code goes on to [CurrentSum(self, other)], an
    object whose second operand is not a current: it has no counterpart
    in [CurrentBase], hence [None]. *)
Definition radd (self : CurrentBase) (other : Z) : option CurrentBase :=
  if other =? 0 then Some self else None.

(** The value that Python's [+] computes: the accumulator of [sum] is the
    [int] start value or a node. *)
Definition py_add (acc : Z + CurrentBase) (x : CurrentBase) : option (Z + CurrentBase) :=
  match acc with
  | inl z => inr <$> radd x z      (* int.__add__ gives NotImplemented *)
  | inr a => Some (inr (add a x))
  end.

(** The builtin [sum(cs)]: [start = 0], then [start = start + c] for every
    element. *)
Definition py_sum (cs : list CurrentBase) : option (Z + CurrentBase) :=
  foldl (fun acc c => acc ≫= fun a => py_add a c) (Some (inl 0)) cs.

(** [get_value]: [sopp.Current.get_value] reads the dof of the node from
    the store [x]; [ScaledCurrent.get_value] and [CurrentSum.get_value]
    are the two Python methods. *)
Fixpoint get_value (x : node_id -> float) (c : CurrentBase) : float :=
  match c with
  | Current self => x self
  | ScaledCurrent current_to_scale scale =>
      f_mul scale (get_value x current_to_scale)
  | CurrentSum current_a current_b =>
      f_add (get_value x current_a) (get_value x current_b)
  end.

(** [Current.vjp], [ScaledCurrent.vjp], [CurrentSum.vjp]; the cotangent
    [v_current] is the one-dimensional array handed over by the field. *)
Fixpoint vjp (c : CurrentBase) (v_current : list float) : Derivative :=
  match c with
  | Current self => {[ self := v_current ]}
  | ScaledCurrent current_to_scale scale =>
      deriv_scale scale (vjp current_to_scale v_current)
  | CurrentSum current_a current_b =>
      deriv_add (vjp current_a v_current) (vjp current_b v_current)
  end.

(** Curves as [coil.py] sees them: some curve object, or the wrapper
    [RotatedCurve(curve, phi, flip)] of [simsopt.geo.curve]. *)
Inductive Curve : Type :=
| CurveObject (self : node_id)
| RotatedCurve (curve : Curve) (phi : float) (flip : bool).

Record Coil : Type := mkCoil { curve : Curve; current : CurrentBase }.

(** [2*pi*k/nfp] *)
Definition rotation_angle (k nfp : Z) : float :=
  f_div (f_mul (f_mul (f_of_int 2) f_pi) (f_of_int k)) (f_of_int nfp).

Definition flip_list (stellsym : bool) : list bool :=
  if stellsym then [false; true] else [false].

(** [apply_symmetries_to_curves]: the three nested loops, each appending
    to [curves].  [base_curves[i]] is in range for every [i] of
    [range(len(base_curves))]; the [None] branch is never taken. *)
Definition apply_symmetries_to_curves
    (base_curves : list Curve) (nfp : Z) (stellsym : bool) : list Curve :=
  foldl (fun curves k =>
    foldl (fun curves flip =>
      foldl (fun curves i =>
        match base_curves !! i with
        | Some c =>
            if (k =? 0) && negb flip
            then curves ++ [c]
            else curves ++ [RotatedCurve c (rotation_angle k nfp) flip]
        | None => curves
        end) curves (seq 0 (length base_curves)))
      curves (flip_list stellsym))
    [] (range nfp).

(** [apply_symmetries_to_currents] *)
Definition apply_symmetries_to_currents
    (base_currents : list CurrentBase) (nfp : Z) (stellsym : bool)
    : list CurrentBase :=
  foldl (fun currents (k : Z) =>
    foldl (fun currents (flip : bool) =>
      foldl (fun currents i =>
        match base_currents !! i with
        | Some c =>
            currents ++ [if flip then ScaledCurrent c (f_opp f_one) else c]
        | None => currents
        end) currents (seq 0 (length base_currents)))
      currents (flip_list stellsym))
    [] (range nfp).

(** [coils_via_symmetries] *)
Definition coils_via_symmetries
    (curves : list Curve) (currents : list CurrentBase)
    (nfp : Z) (stellsym : bool) : exn + list Coil :=
  if negb (length curves =? length currents)%nat then inl AssertionError
  else
    let curves := apply_symmetries_to_curves curves nfp stellsym in
    let currents := apply_symmetries_to_currents currents nfp stellsym in
    inr (zip_with mkCoil curves currents).

(** The number of objects that make up a node. *)
Fixpoint node_size (c : CurrentBase) : nat :=
  match c with
  | Current _ => 1
  | ScaledCurrent current_to_scale _ => Datatypes.S (node_size current_to_scale)
  | CurrentSum current_a current_b =>
      Datatypes.S (node_size current_a + node_size current_b)
  end.

(** The entry that the innermost loop of [apply_symmetries_to_curves],
    respectively of [apply_symmetries_to_currents], appends for the
    rotation [k], the reflection [flip] and the base object [c]; used to
    state what the loops build. *)
Definition curve_copy (nfp k : Z) (flip : bool) (c : Curve) : Curve :=
  if (k =? 0) && negb flip then c
  else RotatedCurve c (rotation_angle k nfp) flip.

Definition current_copy (flip : bool) (c : CurrentBase) : CurrentBase :=
  if flip then ScaledCurrent c (f_opp f_one) else c.

(** The [Current] nodes that a node depends on: the lists [depends_on]
    handed to [Optimizable.__init__] by [ScaledCurrent.__init__] and
    [CurrentSum.__init__], followed down to the nodes that own a dof. *)
Fixpoint current_leaves (c : CurrentBase) : gset node_id :=
  match c with
  | Current self => {[ self ]}
  | ScaledCurrent current_to_scale _ => current_leaves current_to_scale
  | CurrentSum current_a current_b =>
      current_leaves current_a ∪ current_leaves current_b
  end.

(** [Coil.vjp]; the two adjoints of the curve are methods of the curve
    classes and enter as given functions. *)
Definition Coil_vjp
    (dgamma_by_dcoeff_vjp dgammadash_by_dcoeff_vjp : Curve -> list vec3 -> Derivative)
    (self : Coil) (v_gamma v_gammadash : list vec3) (v_current : list float)
    : Derivative :=
  deriv_add
    (deriv_add (dgamma_by_dcoeff_vjp (curve self) v_gamma)
               (dgammadash_by_dcoeff_vjp (curve self) v_gammadash))
    (vjp (current self) v_current).

(** The store [x] with the value of the node [i] replaced by [v]
    ([Current.set_dofs]). *)
Definition set_value (x : node_id -> float) (i : node_id) (v : float)
    : node_id -> float :=
  fun j => if decide (j = i) then v else x j.
End WithScalar.
End coil.

(** ** [simsopt/objectives/fluxobjective.py] *)
Module fluxobjective.

(** A numpy array with the two axes [(nphi, ntheta)]: its shape and its
    entries in row-major order, [nphi * ntheta] of them.  An array of shape
    [(nphi, ntheta, 3)] is the same with entries in [vec3]. *)
Record ndarray (A : Type) : Type := mkArray {
  shape : nat * nat;
  data : list A
}.
Arguments mkArray {A} _ _.
Arguments shape {A} _.
Arguments data {A} _.

(** [a.size] *)
Definition size {A : Type} (a : ndarray A) : nat := ((shape a).1 * (shape a).2)%nat.

(** An array holds as many entries as its shape says. *)
Definition well_formed {A : Type} (a : ndarray A) : Prop := length (data a) = size a.

(** The array [a] has the shape [(nphi, ntheta)]. *)
Definition array_of_shape {A : Type} (nphi ntheta : nat) (a : ndarray A) : Prop :=
  shape a = (nphi, ntheta) /\ length (data a) = (nphi * ntheta)%nat.

(** [a[i, j]] *)
Definition item {A : Type} (a : ndarray A) (i j : nat) : option A :=
  data a !! (i * (shape a).2 + j)%nat.

(** The rows of a flat array read as [nphi] rows of [ntheta] entries. *)
Fixpoint chunks {A : Type} (nphi ntheta : nat) (flat : list A) : list (list A) :=
  match nphi with
  | O => []
  | Datatypes.S nphi' => take ntheta flat :: chunks nphi' ntheta (drop ntheta flat)
  end.

(** [flat.reshape(shp)] for an array [flat] of shape [(npoints, 3)] and a
    shape [(nphi, ntheta, 3)]: numpy raises [ValueError] when the sizes
    disagree. *)
Definition reshape {A : Type} (flat : list A) (shp : nat * nat) : exn + ndarray A :=
  if (length flat =? shp.1 * shp.2)%nat then inr (mkArray shp flat)
  else inl ValueError.

(** A function applied to every entry, or along the last axis of every
    entry in [vec3]: the shape stays. *)
Definition np_map {A B : Type} (f : A -> B) (a : ndarray A) : ndarray B :=
  mkArray (shape a) (map f (data a)).

(** One axis under numpy's broadcasting rule: equal lengths agree, a length
    of one is stretched to the other length, and other lengths do not go
    together. *)
Definition broadcast_axis (m n : nat) : option nat :=
  if (m =? n)%nat then Some m
  else if (m =? 1)%nat then Some n
  else if (n =? 1)%nat then Some m
  else None.

(** [np.broadcast_shapes] of two shapes [(nphi, ntheta)]. *)
Definition broadcast_shapes (s t : nat * nat) : option (nat * nat) :=
  match broadcast_axis s.1 t.1, broadcast_axis s.2 t.2 with
  | Some nphi, Some ntheta => Some (nphi, ntheta)
  | _, _ => None
  end.

(** An axis of length [m] brought to the length [n]: an axis that has the
    length already stays, an axis of length one is repeated. *)
Definition stretch {A : Type} (m n : nat) (l : list A) : list A :=
  if (m =? n)%nat then l else flat_map (fun x => repeat x n) l.

(** [np.broadcast_to(a, shp)] for a shape that [a] broadcasts to. *)
Definition broadcast_to {A : Type} (a : ndarray A) (shp : nat * nat) : ndarray A :=
  let '(nphi, ntheta) := shape a in
  mkArray shp
    (concat (stretch nphi shp.1 (map (stretch ntheta shp.2) (chunks nphi ntheta (data a))))).

(** The array [a] broadcasts to the shape [(nphi, ntheta)]: on each axis it
    has that length or the length one. *)
Definition broadcasts_to {A : Type} (nphi ntheta : nat) (a : ndarray A) : Prop :=
  well_formed a /\ broadcast_shapes (nphi, ntheta) (shape a) = Some (nphi, ntheta).

(** A binary operator of numpy on two arrays: both are broadcast to their
    common shape and combined entry by entry; numpy raises [ValueError]
    when the shapes do not go together. *)
Definition np_binop {A B C : Type} (f : A -> B -> C) (a : ndarray A) (b : ndarray B)
    : exn + ndarray C :=
  match broadcast_shapes (shape a) (shape b) with
  | Some shp =>
      inr (mkArray shp (zip_with f (data (broadcast_to a shp)) (data (broadcast_to b shp))))
  | None => inl ValueError
  end.

(** Statements in sequence: the first exception ends the method. *)
Definition bind {A B : Type} (m : exn + A) (k : A -> exn + B) : exn + B :=
  match m with
  | inl e => inl e
  | inr a => k a
  end.

#[local] Notation "'let*' x ':=' m 'in' k" := (bind m (fun x => k))
  (at level 10, x name, m at level 100, k at level 200).

Section WithScalar.
Context {S : Scalar}.

(** The surface collaborator: [gamma()] and [normal()], both of shape
    [(nphi, ntheta, 3)]. *)
Record Surface : Type := mkSurface {
  gamma : ndarray vec3;
  normal : ndarray vec3
}.

(** The field collaborator.  Its state is the set of evaluation points;
    [kernel_B] is the field at one point and [kernel_B_vjp] the adjoint
    of the field at the current points, both supplied by the native
    extension. *)
Record MagneticField : Type := mkField {
  points : list vec3;
  kernel_B : vec3 -> vec3;
  kernel_B_vjp : list vec3 -> list vec3 -> Derivative
}.

Definition set_points (field : MagneticField) (xyz : list vec3) : MagneticField :=
  {| points := xyz; kernel_B := kernel_B field; kernel_B_vjp := kernel_B_vjp field |}.

(** [field.B()], of shape [(npoints, 3)] *)
Definition B (field : MagneticField) : list vec3 :=
  map (kernel_B field) (points field).

Definition B_vjp (field : MagneticField) (v : list vec3) : Derivative :=
  kernel_B_vjp field (points field) v.

(** [target] is [None] or an array with two axes, [nphi x ntheta] by the
    docstring of the class. *)
Record SquaredFlux : Type := mkSquaredFlux {
  surface : Surface;
  target : option (ndarray float);
  field : MagneticField
}.

(** [SquaredFlux.__init__]; [xyz.reshape((-1, 3))] is the flat list of the
    entries of [xyz]. *)
Definition init (surface : Surface) (field : MagneticField)
    (target : option (ndarray float)) : SquaredFlux :=
  let xyz := gamma surface in
  {| surface := surface; target := target;
     field := set_points field (data xyz) |}.

(** What a method under [derivative_dec] hands out: the Derivative, or the
    gradient as one flat array. *)
Inductive gradient : Type :=
| Partials (d : Derivative)
| Flat (g : list float).

(** Modelled from the spec: the decorator [derivative_dec] of
    [simsopt._core.derivative], which is not part of the sources at hand.
    By section 4.7 the body of the method yields the Derivative map, and a
    flat gradient comes from flattening that map against the dof ordering
    of section 4.1.  The decorated method takes the keyword [partials]:
    with [partials=True] it hands out the Derivative of the body, and by
    default that Derivative called on the object, the flat gradient that
    the example scripts give to the optimizer ([grad = JF.dJ()]).  The
    flattening, [Derivative.__call__], is the parameter [call]. *)
Definition derivative_dec {Self : Type} (call : Derivative -> Self -> list float)
    (func : Self -> exn + Derivative) (self : Self) (partials : bool)
    : exn + gradient :=
  match func self with
  | inl e => inl e
  | inr d => inr (if partials then Partials d else Flat (call d self))
  end.

(** [SquaredFlux.dJ]: the decorator applied to the method as written,
    statement by statement.  Every operator between arrays broadcasts, as
    numpy does; the index [None] adds the last axis, along which an entry
    in [vec3] is multiplied by a number. *)
Definition dJ (call : Derivative -> SquaredFlux -> list float)
    : SquaredFlux -> bool -> exn + gradient :=
  derivative_dec call (fun self =>
    let n := normal (surface self) in
    let absn := np_map vec3_norm n in
    let* unitn := np_binop vec3_mul_r n (np_map (f_div f_one) absn) in
    let* Bcoil := reshape (B (field self)) (shape n) in
    let* Bcoil_n := np_binop vec3_dot Bcoil unitn in
    let* B_n :=
      match target self with
      | Some target => np_binop f_sub Bcoil_n target
      | None => inr Bcoil_n
      end in
    let* dJdB := np_binop (fun r u => vec3_scale r u) B_n unitn in
    let* dJdB := np_binop vec3_mul_r dJdB absn in
    let dJdB := np_map (fun p => vec3_div_r p (f_of_int (Z.of_nat (size absn)))) dJdB in
    let dJdB := data dJdB in
    inr (B_vjp (field self) dJdB)).

(** The unit normal [nhat = n * (1/|n|)] and the residual [B.nhat - t] at
    one quadrature point with field [Bp], surface normal [n] and target
    [t]. *)
Definition unit_normal (n : vec3) : vec3 :=
  vec3_mul_r n (f_div f_one (vec3_norm n)).

Definition residual (Bp n : vec3) (t : float) : float :=
  f_sub (vec3_dot Bp (unit_normal n)) t.

(** The cotangent at one quadrature point: the residual times the unit
    normal times the length [|n|] of the surface normal, over the number
    [N] of quadrature points. *)
Definition cotangent_at (N : nat) (Bp n : vec3) (t : float) : vec3 :=
  vec3_div_r
    (vec3_mul_r (vec3_scale (residual Bp n t) (unit_normal n)) (vec3_norm n))
    (f_of_int (Z.of_nat N)).

Definition cotangent (Bs ns : list vec3) (ts : list float) : list vec3 :=
  zip_with (fun bn t => cotangent_at (length ns) bn.1 bn.2 t) (zip Bs ns) ts.

(** The cotangent in the words of the specification, section 4.7:
    [residual * nhat * |nhat| / N], with the length of the unit normal
    where [cotangent_at] has the length of the normal. *)
Definition stated_cotangent_at (N : nat) (Bp n : vec3) (t : float) : vec3 :=
  vec3_div_r
    (vec3_mul_r (vec3_scale (residual Bp n t) (unit_normal n))
                (vec3_norm (unit_normal n)))
    (f_of_int (Z.of_nat N)).

Definition stated_cotangent (Bs ns : list vec3) (ts : list float) : list vec3 :=
  zip_with (fun bn t => stated_cotangent_at (length ns) bn.1 bn.2 t) (zip Bs ns) ts.

(** The target at every quadrature point: the given array broadcast to the
    shape of the surface arrays, and zero when none was given. *)
Definition target_or_zero (self : SquaredFlux) : list float :=
  match target self with
  | Some target => data (broadcast_to target (shape (normal (surface self))))
  | None => zeros (length (data (normal (surface self))))
  end.
End WithScalar.
End fluxobjective.

(** ** [simsopt/geo/multifilament.py] *)
Module multifilament.
Section WithScalar.
Context {S : Scalar}.

(** [2*np.pi*j*points] at one point *)
Definition phase (j : nat) (p : float) : float :=
  f_mul (f_mul (f_mul (f_of_int 2) f_pi) (f_of_int (Z.of_nat j))) p.

(** [dofs[k]].  A [FilamentRotation] of order [m] has [2*m+1] dofs, so
    that every index [0 .. 2*m] that the loops below read is in range, and
    the statements about these loops carry the length of the dof array as
    a hypothesis.  Past the end, where numpy raises [IndexError], the
    value here is the last entry, as under [jit], and zero for an empty
    array; no statement rests on it. *)
Definition getitem (dofs : list float) (k : nat) : float :=
  nth (Nat.min k (length dofs - 1)) dofs f_zero.

(** [range(1, order+1)] *)
Definition orders (order : nat) : list nat := seq 1 order.

(** [rotation += c * f(points)] for a number [c] *)
Definition iadd_scaled (rotation : list float) (c : float) (fp : list float) : list float :=
  zip_with (fun r t => f_add r (f_mul c t)) rotation fp.

(** [rotation -= c * f(points)] *)
Definition isub_scaled (rotation : list float) (c : float) (fp : list float) : list float :=
  zip_with (fun r t => f_sub r (f_mul c t)) rotation fp.

(** [jaxrotation_pure]: [rotation] starts as zeros, [dofs[0]] is added to
    every entry, then the sine and cosine terms of each [j]. *)
Definition jaxrotation_pure (dofs points : list float) (order : nat) : list float :=
  let rotation := zeros (length points) in
  let rotation := map (fun r => f_add r (getitem dofs 0)) rotation in
  foldl (fun rotation j =>
           let rotation :=
             iadd_scaled rotation (getitem dofs (2 * j - 1))
               (map (fun p => f_sin (phase j p)) points) in
           iadd_scaled rotation (getitem dofs (2 * j))
             (map (fun p => f_cos (phase j p)) points))
        rotation (orders order).

(** [dofs[k] * 2*np.pi*j], evaluated from the left *)
Definition dash_factor (d : float) (j : nat) : float :=
  f_mul (f_mul (f_mul d (f_of_int 2)) f_pi) (f_of_int (Z.of_nat j)).

Definition jaxrotationdash_pure (dofs points : list float) (order : nat) : list float :=
  let rotation := zeros (length points) in
  foldl (fun rotation j =>
           let rotation :=
             iadd_scaled rotation (dash_factor (getitem dofs (2 * j - 1)) j)
               (map (fun p => f_cos (phase j p)) points) in
           isub_scaled rotation (dash_factor (getitem dofs (2 * j)) j)
             (map (fun p => f_sin (phase j p)) points))
        rotation (orders order).

(** [jac[:, k] = col]: the column [k] of every row is overwritten. *)
Definition set_column (jac : list (list float)) (k : nat) (col : list float)
    : list (list float) :=
  zip_with (fun row c => <[k := c]> row) jac col.

(** [np.zeros((rows, cols))] *)
Definition zeros2 (rows cols : nat) : list (list float) :=
  repeat (zeros cols) rows.

(** A matrix given by its rows has the shape [(rows, cols)]. *)
Definition has_shape (rows cols : nat) (jac : list (list float)) : Prop :=
  length jac = rows /\ Forall (fun row => length row = cols) jac.

(** [rotation_dcoeff]; [jac[:, 0] = 1] stores the float [1.0] in the
    first column. *)
Definition rotation_dcoeff (points : list float) (order : nat) : list (list float) :=
  let jac := zeros2 (length points) (2 * order + 1) in
  let jac := map (fun row => <[0%nat := f_one]> row) jac in
  foldl (fun jac j =>
           let jac := set_column jac (2 * j - 1)
                        (map (fun p => f_sin (phase j p)) points) in
           set_column jac (2 * j + 0)
             (map (fun p => f_cos (phase j p)) points))
        jac (orders order).

(** [+2*np.pi*j] and [-2*np.pi*j] *)
Definition two_pi_j (sign2 : Z) (j : nat) : float :=
  f_mul (f_mul (f_of_int sign2) f_pi) (f_of_int (Z.of_nat j)).

Definition rotationdash_dcoeff (points : list float) (order : nat) : list (list float) :=
  let jac := zeros2 (length points) (2 * order + 1) in
  foldl (fun jac j =>
           let jac := set_column jac (2 * j - 1)
                        (map (fun p => f_mul (two_pi_j 2 j) (f_cos (phase j p))) points) in
           set_column jac (2 * j + 0)
             (map (fun p => f_mul (two_pi_j (-2) j) (f_sin (phase j p))) points))
        jac (orders order).

(** Modelled from the spec: [sopp.vjp(v, jac)] of the native extension,
    the adjoint [J^T v] of the glossary: entry [k] is the sum over the
    rows [i] of [v[i] * jac[i][k]].  [ncols] is [jac.shape[1]], which a
    list of rows does not record when there is no row. *)
Definition sopp_vjp (v : list float) (jac : list (list float)) (ncols : nat) : list float :=
  foldl (fun acc vr => array_add acc (array_scale vr.1 vr.2)) (zeros ncols) (zip v jac).

(** [FilamentRotation] *)
Record FilamentRotation : Type := mkFilamentRotation {
  self : node_id;
  order : nat;
  quadpoints : list float;
  jac : list (list float);
  jacdash : list (list float)
}.

(** [FilamentRotation.__init__]; [id] is the identity of the new object,
    whose [2*order+1] dofs start at zero in the store. *)
Definition FilamentRotation_init (id : node_id) (quadpoints : list float) (order : nat)
    : FilamentRotation :=
  {| self := id; order := order; quadpoints := quadpoints;
     jac := rotation_dcoeff quadpoints order;
     jacdash := rotationdash_dcoeff quadpoints order |}.

(** The rotation held by a [CurveShiftedRotated]: the two classes share
    the four methods below. *)
Inductive Rotation : Type :=
| IsFilamentRotation (r : FilamentRotation)
| ZeroRotation (zero : list float).

(** [ZeroRotation.__init__]: [np.zeros((quadpoints.size, ))] *)
Definition ZeroRotation_init (quadpoints : list float) : Rotation :=
  ZeroRotation (zeros (length quadpoints)).

(** [alpha]; [full_x] gives the dofs of every node. *)
Definition alpha (full_x : node_id -> list float) (rot : Rotation)
    (quadpoints : list float) : list float :=
  match rot with
  | IsFilamentRotation r => jaxrotation_pure (full_x (self r)) quadpoints (order r)
  | ZeroRotation zero => zero
  end.

Definition alphadash (full_x : node_id -> list float) (rot : Rotation)
    (quadpoints : list float) : list float :=
  match rot with
  | IsFilamentRotation r => jaxrotationdash_pure (full_x (self r)) quadpoints (order r)
  | ZeroRotation zero => zero
  end.

Definition dalpha_by_dcoeff_vjp (rot : Rotation) (quadpoints v : list float) : Derivative :=
  match rot with
  | IsFilamentRotation r => {[ self r := sopp_vjp v (jac r) (2 * order r + 1) ]}
  | ZeroRotation _ => ∅
  end.

Definition dalphadash_by_dcoeff_vjp (rot : Rotation) (quadpoints v : list float) : Derivative :=
  match rot with
  | IsFilamentRotation r => {[ self r := sopp_vjp v (jacdash r) (2 * order r + 1) ]}
  | ZeroRotation _ => ∅
  end.

(** The base curve of a [CurveShiftedRotated], as far as the wrapper uses
    it: its quadrature points, its geometry at the present dofs and its
    three adjoints. *)
Record Curve : Type := mkCurve {
  curve_quadpoints : list float;
  curve_gamma : list vec3;
  curve_gammadash : list vec3;
  curve_gammadashdash : list vec3;
  curve_dgamma_by_dcoeff_vjp : list vec3 -> Derivative;
  curve_dgammadash_by_dcoeff_vjp : list vec3 -> Derivative;
  curve_dgammadashdash_by_dcoeff_vjp : list vec3 -> Derivative
}.

(** A cotangent of the frame [(t, n, b)]. *)
Definition frame_cotangent : Type := list vec3 * list vec3 * list vec3.

(** The adjoints that [jax.vjp] derives from [rotated_centroid_frame] and
    [rotated_centroid_frame_dash]; they are the work of the automatic
    differentiation and enter as given functions. *)
Record FrameAdjoints : Type := mkFrameAdjoints {
  rotated_centroid_frame_dcoeff_vjp0 :
    list vec3 -> list vec3 -> list float -> frame_cotangent -> list vec3;
  rotated_centroid_frame_dcoeff_vjp1 :
    list vec3 -> list vec3 -> list float -> frame_cotangent -> list vec3;
  rotated_centroid_frame_dcoeff_vjp2 :
    list vec3 -> list vec3 -> list float -> frame_cotangent -> list float;
  rotated_centroid_frame_dash_dcoeff_vjp0 :
    list vec3 -> list vec3 -> list vec3 -> list float -> list float ->
    frame_cotangent -> list vec3;
  rotated_centroid_frame_dash_dcoeff_vjp1 :
    list vec3 -> list vec3 -> list vec3 -> list float -> list float ->
    frame_cotangent -> list vec3;
  rotated_centroid_frame_dash_dcoeff_vjp2 :
    list vec3 -> list vec3 -> list vec3 -> list float -> list float ->
    frame_cotangent -> list vec3;
  rotated_centroid_frame_dash_dcoeff_vjp3 :
    list vec3 -> list vec3 -> list vec3 -> list float -> list float ->
    frame_cotangent -> list float;
  rotated_centroid_frame_dash_dcoeff_vjp4 :
    list vec3 -> list vec3 -> list vec3 -> list float -> list float ->
    frame_cotangent -> list float
}.

Record CurveShiftedRotated : Type := mkCurveShiftedRotated {
  curve : Curve;
  dn : float;
  db : float;
  rotation : Rotation;
  depends_on : list (Curve + FilamentRotation)
}.

(** [CurveShiftedRotated.__init__]; the argument [rotation] is [None] or
    a [FilamentRotation]. *)
Definition CurveShiftedRotated_init (curve : Curve) (dn db : float)
    (rotation : option FilamentRotation) : CurveShiftedRotated :=
  let deps := [inl curve] in
  let deps :=
    match rotation with
    | Some r => deps ++ [inr r]
    | None => deps
    end in
  let rotation :=
    match rotation with
    | None => ZeroRotation_init (curve_quadpoints curve)
    | Some r => IsFilamentRotation r
    end in
  {| curve := curve; dn := dn; db := db; rotation := rotation;
     depends_on := deps |}.

(** [v + w] on [(m, 3)] arrays *)
Definition vec3s_add (v w : list vec3) : list vec3 := zip_with vec3_add v w.

Section WithAdjoints.
Context (jax : FrameAdjoints) (full_x : node_id -> list float).

Definition dgamma_by_dcoeff_vjp (self : CurveShiftedRotated) (v : list vec3)
    : Derivative :=
  let c := curve self in
  let g := curve_gamma c in
  let gd := curve_gammadash c in
  let a := alpha full_x (rotation self) (curve_quadpoints c) in
  let zero := zeros_like v in
  let cot := (zero, map (vec3_scale (dn self)) v, map (vec3_scale (db self)) v) in
  let vg := rotated_centroid_frame_dcoeff_vjp0 jax g gd a cot in
  let vgd := rotated_centroid_frame_dcoeff_vjp1 jax g gd a cot in
  let va := rotated_centroid_frame_dcoeff_vjp2 jax g gd a cot in
  deriv_add
    (deriv_add (curve_dgamma_by_dcoeff_vjp c (vec3s_add v vg))
               (curve_dgammadash_by_dcoeff_vjp c vgd))
    (dalpha_by_dcoeff_vjp (rotation self) (curve_quadpoints c) va).

Definition dgammadash_by_dcoeff_vjp (self : CurveShiftedRotated) (v : list vec3)
    : Derivative :=
  let c := curve self in
  let g := curve_gamma c in
  let gd := curve_gammadash c in
  let gdd := curve_gammadashdash c in
  let a := alpha full_x (rotation self) (curve_quadpoints c) in
  let ad := alphadash full_x (rotation self) (curve_quadpoints c) in
  let zero := zeros_like v in
  let cot := (zero, map (vec3_scale (dn self)) v, map (vec3_scale (db self)) v) in
  let vg := rotated_centroid_frame_dash_dcoeff_vjp0 jax g gd gdd a ad cot in
  let vgd := rotated_centroid_frame_dash_dcoeff_vjp1 jax g gd gdd a ad cot in
  let vgdd := rotated_centroid_frame_dash_dcoeff_vjp2 jax g gd gdd a ad cot in
  let va := rotated_centroid_frame_dash_dcoeff_vjp3 jax g gd gdd a ad cot in
  let vad := rotated_centroid_frame_dash_dcoeff_vjp4 jax g gd gdd a ad cot in
  deriv_add
    (deriv_add
       (deriv_add
          (deriv_add (curve_dgamma_by_dcoeff_vjp c vg)
                     (curve_dgammadash_by_dcoeff_vjp c (vec3s_add v vgd)))
          (curve_dgammadashdash_by_dcoeff_vjp c vgdd))
       (dalpha_by_dcoeff_vjp (rotation self) (curve_quadpoints c) va))
    (dalphadash_by_dcoeff_vjp (rotation self) (curve_quadpoints c) vad).
End WithAdjoints.

(** ** The loops of the four Fourier routines at one quadrature point *)

(** The entry of [jaxrotation_pure] at the point [p] after the terms
    [j = 1 .. m]. *)
Definition rotation_at (dofs : list float) (m : nat) (p : float) : float :=
  foldl (fun r j =>
           f_add (f_add r (f_mul (getitem dofs (2 * j - 1)) (f_sin (phase j p))))
                 (f_mul (getitem dofs (2 * j)) (f_cos (phase j p))))
        (f_add f_zero (getitem dofs 0)) (orders m).

Definition rotationdash_at (dofs : list float) (m : nat) (p : float) : float :=
  foldl (fun r j =>
           f_sub (f_add r (f_mul (dash_factor (getitem dofs (2 * j - 1)) j)
                                 (f_cos (phase j p))))
                 (f_mul (dash_factor (getitem dofs (2 * j)) j) (f_sin (phase j p))))
        f_zero (orders m).

(** The row of [rotation_dcoeff] for the point [p], of [width] columns,
    after the columns of [j = 1 .. m] have been written. *)
Definition rotation_dcoeff_row (width m : nat) (p : float) : list float :=
  foldl (fun row j =>
           <[(2 * j + 0)%nat := f_cos (phase j p)]>
             (<[(2 * j - 1)%nat := f_sin (phase j p)]> row))
        (<[0%nat := f_one]> (zeros width)) (orders m).

Definition rotationdash_dcoeff_row (width m : nat) (p : float) : list float :=
  foldl (fun row j =>
           <[(2 * j + 0)%nat := f_mul (two_pi_j (-2) j) (f_sin (phase j p))]>
             (<[(2 * j - 1)%nat := f_mul (two_pi_j 2 j) (f_cos (phase j p))]> row))
        (zeros width) (orders m).

(** ** The angle profile in the words of the specification *)

(** [u . c], the sum of the products entry by entry. *)
Definition dot (u c : list float) : float :=
  foldr (fun uc acc => f_add (f_mul uc.1 uc.2) acc) f_zero (zip u c).

(** A matrix applied to a vector. *)
Definition apply_matrix (jac : list (list float)) (c : list float) : list float :=
  map (fun row => dot row c) jac.

(** [c[0] + sum_j c[2j-1] sin(2 pi j p) + c[2j] cos(2 pi j p)], the sum
    taken over [j = 1 .. order] from the highest term down. *)
Fixpoint fourier_terms (c : list float) (p : float) (order : nat) : float :=
  match order with
  | O => f_zero
  | Datatypes.S m =>
      f_add (fourier_terms c p m)
            (f_add (f_mul (nth (2 * order - 1) c f_zero) (f_sin (phase order p)))
                   (f_mul (nth (2 * order) c f_zero) (f_cos (phase order p))))
  end.

Definition fourier_series (c : list float) (order : nat) (p : float) : float :=
  f_add (nth 0 c f_zero) (fourier_terms c p order).

(** ** The centroid frame *)

Definition vec3_sub (p q : vec3) : vec3 :=
  match p, q with
  | (x, y, z), (x', y', z') => (f_sub x x', f_sub y y', f_sub z z')
  end.

(** [jnp.cross(t, n, axis=1)] on one row *)
Definition vec3_cross (p q : vec3) : vec3 :=
  match p, q with
  | (x, y, z), (x', y', z') =>
      (f_sub (f_mul y z') (f_mul z y'),
       f_sub (f_mul z x') (f_mul x z'),
       f_sub (f_mul x y') (f_mul y x'))
  end.

(** [jnp.mean(gamma, axis=0)]: the sum of the rows over their number. *)
Definition mean_axis0 (gamma : list vec3) : vec3 :=
  vec3_div_r (foldl vec3_add vec3_zero gamma) (f_of_int (Z.of_nat (length gamma))).

(** [v * (1./norm(v, axis=1))[:, None]] *)
Definition normalize_rows (v : list vec3) : list vec3 :=
  map (fun p => vec3_mul_r p (f_div f_one (vec3_norm p))) v.

(** The frame before it is rotated: the first seven statements of
    [rotated_centroid_frame]. *)
Definition centroid_frame (gamma gammadash : list vec3)
    : list vec3 * list vec3 * list vec3 :=
  let t := gammadash in
  let t := normalize_rows t in
  let R := mean_axis0 gamma in
  let delta := map (fun g => vec3_sub g R) gamma in
  let n := zip_with (fun d t_i => vec3_sub d (vec3_scale (vec3_dot d t_i) t_i)) delta t in
  let n := normalize_rows n in
  let b := zip_with vec3_cross t n in
  (t, n, b).

(** [rotated_centroid_frame] *)
Definition rotated_centroid_frame (gamma gammadash : list vec3) (alpha : list float)
    : list vec3 * list vec3 * list vec3 :=
  let t := gammadash in
  let t := normalize_rows t in
  let R := mean_axis0 gamma in
  let delta := map (fun g => vec3_sub g R) gamma in
  let n := zip_with (fun d t_i => vec3_sub d (vec3_scale (vec3_dot d t_i) t_i)) delta t in
  let n := normalize_rows n in
  let b := zip_with vec3_cross t n in
  let nn :=
    zip_with (fun a nb => vec3_sub (vec3_scale (f_cos a) nb.1) (vec3_scale (f_sin a) nb.2))
             alpha (zip n b) in
  let bb :=
    zip_with (fun a nb => vec3_add (vec3_scale (f_sin a) nb.1) (vec3_scale (f_cos a) nb.2))
             alpha (zip n b) in
  (t, nn, bb).

(** [np.linalg.norm] of a one-dimensional array *)
Definition norm1d (u : list float) : float := f_sqrt (dot u u).

(** [CurveShiftedRotated.gamma_impl]: the value written to [gamma[:]], or
    the failed assertion.  [lt] is the comparison [<] of floats and [tol]
    the literal [1e-15]. *)
Definition gamma_impl (lt : float -> float -> bool) (tol : float)
    (full_x : node_id -> list float) (self : CurveShiftedRotated)
    (quadpoints : list float) : exn + list vec3 :=
  let c := curve self in
  if negb (length quadpoints =? length (curve_quadpoints c))%nat
  then inl AssertionError
  else if negb (lt (norm1d (zip_with f_sub quadpoints (curve_quadpoints c))) tol)
  then inl AssertionError
  else
    let '(t, n, b) :=
      rotated_centroid_frame (curve_gamma c) (curve_gammadash c)
        (alpha full_x (rotation self) (curve_quadpoints c)) in
    inr (vec3s_add (vec3s_add (curve_gamma c) (map (vec3_scale (dn self)) n))
                   (map (vec3_scale (db self)) b)).
End WithScalar.
End multifilament.

(** ** [examples/2_Intermediate/stage_two_optimization_w7x.py] *)
Module stage_two_optimization_w7x.
Section WithScalar.
Context {S : Scalar}.
Import coil.

(** [base_currents += [total_current - sum(base_currents)]]: the list after
    the statement.  With no base current [sum] is the [int] [0] and the
    operand of [-] is not a node, hence [None]. *)
Definition append_last_current (total_current : CurrentBase)
    (base_currents : list CurrentBase) : option (list CurrentBase) :=
  match py_sum base_currents with
  | Some (inr s) => Some (base_currents ++ [sub total_current s])
  | _ => None
  end.
End WithScalar.
End stage_two_optimization_w7x.

(** ** Sample objects *)
Module samples.
Import coil fluxobjective multifilament.

(** Two base curves, two base currents and values for the currents. *)
Definition base_curves : list (@coil.Curve ZScalar) :=
  [CurveObject 1; CurveObject 2].

Definition base_currents : list (@CurrentBase ZScalar) :=
  [Current 3; ScaledCurrent (S := ZScalar) (Current 4) 5].

Definition current_values (i : node_id) : @float ZScalar := Z.pos i + 6.

(** A surface with one row of two quadrature points, and a field with
    the same value at every point whose adjoint records the cotangent
    under the key [7]. *)
Definition surface_1x2 : @Surface ZScalar :=
  mkSurface (S := ZScalar)
    (mkArray (1, 2)%nat [(0, 0, 0); (1, 0, 0)])
    (mkArray (1, 2)%nat [(0, 0, 1); (0, 1, 0)]).

Definition uniform_field : @MagneticField ZScalar :=
  mkField (S := ZScalar) []
    (fun _ => (1, 2, 3))
    (fun _ v => {[ 7%positive := map (fun p : Z * Z * Z => p.1.1 + p.1.2 + p.2) v ]}).

Definition flux : @SquaredFlux ZScalar :=
  fluxobjective.init (S := ZScalar) surface_1x2 uniform_field
    (Some (mkArray (1, 2)%nat [1; 0])).

Definition flux_no_target : @SquaredFlux ZScalar :=
  fluxobjective.init (S := ZScalar) surface_1x2 uniform_field None.

(** The dofs of a rotation of order one. *)
Definition rotation_dofs (i : node_id) : list (@float ZScalar) := [1; 2; 3].

(** A base curve with two quadrature points whose adjoints report the
    keys [9] and [10]. *)
Definition base_curve : @multifilament.Curve ZScalar :=
  mkCurve (S := ZScalar) [0; 1]
    [(1, 0, 0); (0, 1, 0)]
    [(0, 1, 0); (1, 0, 0)]
    [(1, 0, 0); (0, 1, 0)]
    (fun v => {[ 9%positive := map (fun p : Z * Z * Z => p.1.1) v ]})
    (fun v => {[ 9%positive := map (fun p : Z * Z * Z => p.1.2) v ]})
    (fun v => {[ 10%positive := map (fun p : Z * Z * Z => p.2) v ]}).

(** Frame adjoints that hand back parts of the cotangent. *)
Definition frame_adjoints : @FrameAdjoints ZScalar :=
  mkFrameAdjoints (S := ZScalar)
    (fun _ _ _ cot => cot.1.2)
    (fun _ _ _ cot => cot.2)
    (fun _ _ a _ => a)
    (fun _ _ _ _ _ cot => cot.1.2)
    (fun _ _ _ _ _ cot => cot.2)
    (fun _ _ _ _ _ cot => cot.1.1)
    (fun _ _ _ a _ _ => a)
    (fun _ _ _ _ ad _ => ad).

(** The same surface and field with a target equal to the normal field,
    and a flux object whose field was left without evaluation points. *)
Definition flux_matched : @SquaredFlux ZScalar :=
  fluxobjective.init (S := ZScalar) surface_1x2 uniform_field
    (Some (mkArray (1, 2)%nat [3; 2])).

Definition flux_without_points : @SquaredFlux ZScalar :=
  mkSquaredFlux (S := ZScalar) surface_1x2 None uniform_field.

(** [Derivative.__call__] for an object whose free dofs are those of the
    node [7]. *)
Definition call_on_field (d : gmap node_id (list (@float ZScalar)))
    (self : @SquaredFlux ZScalar)
    : list (@float ZScalar) :=
  default [] (d !! 7%positive).

(** Targets of other shapes on the same surface: three columns where the
    surface has two, and a single entry. *)
Definition flux_wide_target : @SquaredFlux ZScalar :=
  fluxobjective.init (S := ZScalar) surface_1x2 uniform_field
    (Some (mkArray (1, 3)%nat [1; 0; 5])).

Definition flux_single_target : @SquaredFlux ZScalar :=
  fluxobjective.init (S := ZScalar) surface_1x2 uniform_field
    (Some (mkArray (1, 1)%nat [1])).

(** Over the real numbers: one quadrature point with a normal of length
    two, and a field of length one along that normal. *)
Definition surface_long_normal : @Surface RScalar :=
  mkSurface (S := RScalar)
    (mkArray (1, 1)%nat [(0, 0, 0)%R])
    (mkArray (1, 1)%nat [(0, 0, 2)%R]).

Definition field_along_normal : @MagneticField RScalar :=
  mkField (S := RScalar) []
    (fun _ => (0, 0, 1)%R)
    (fun _ v => {[ 7%positive := map (fun p : R * R * R => p.2) v ]}).

Definition flux_long_normal : @SquaredFlux RScalar :=
  fluxobjective.init (S := RScalar) surface_long_normal field_along_normal None.

Definition call_on_real_field (d : gmap node_id (list (@float RScalar)))
    (self : @SquaredFlux RScalar)
    : list (@float RScalar) :=
  default [] (d !! 7%positive).

(** A rotation of order one, and the base curve shifted by nothing. *)
Definition rotation_order1 : @FilamentRotation ZScalar :=
  FilamentRotation_init (S := ZScalar) 8 [0; 1] 1.

Definition shifted_by_zero : @CurveShiftedRotated ZScalar :=
  CurveShiftedRotated_init (S := ZScalar) base_curve 0 0 None.
End samples.

(** * Properties *)

(** ** Loops that append *)
Section Loops.
Context {A B : Type}.

(** A loop whose body appends [g x] to the accumulator builds the
    concatenation of the [g x]. *)
Lemma foldl_appending (f : list B -> A -> list B) (g : A -> list B) :
  (forall acc x, f acc x = acc ++ g x) ->
  forall l acc, foldl f acc l = acc ++ flat_map g l.
Proof.
  intros Hf l. induction l as [|x l IH]; intros acc; simpl.
  - by rewrite app_nil_r.
  - by rewrite IH, Hf, <- app_assoc.
Qed.

(** [for i in range(len(xs)): acc.append(h(xs[i]))] visits the elements
    of [xs] in order. *)
Lemma foldl_index_loop (h : A -> B) (pre rest : list A) (acc : list B) :
  foldl (fun acc i =>
           match (pre ++ rest) !! i with
           | Some c => acc ++ [h c]
           | None => acc
           end) acc (seq (length pre) (length rest))
  = acc ++ map h rest.
Proof.
  revert pre acc. induction rest as [|c rest IH]; intros pre acc; simpl.
  - by rewrite app_nil_r.
  - rewrite list_lookup_middle by done.
    replace (pre ++ c :: rest) with ((pre ++ [c]) ++ rest)
      by (by rewrite <- app_assoc).
    replace (Datatypes.S (length pre)) with (length (pre ++ [c]))
      by (rewrite length_app; simpl; lia).
    by rewrite IH, <- app_assoc.
Qed.

Lemma foldl_index_loop_all (h : A -> B) (xs : list A) (acc : list B) :
  foldl (fun acc i =>
           match xs !! i with
           | Some c => acc ++ [h c]
           | None => acc
           end) acc (seq 0 (length xs))
  = acc ++ map h xs.
Proof. apply (foldl_index_loop h [] xs acc). Qed.

Lemma foldl_ext_all {C : Type} (f g : C -> A -> C) :
  (forall acc x, f acc x = g acc x) ->
  forall l acc, foldl f acc l = foldl g acc l.
Proof.
  intros Hfg l. induction l as [|x l IH]; intros acc; simpl; [done|].
  by rewrite Hfg, IH.
Qed.

Lemma length_flat_map_const (g : A -> list B) (n : nat) (l : list A) :
  (forall x, length (g x) = n) -> length (flat_map g l) = (length l * n)%nat.
Proof.
  intros Hg. induction l as [|x l IH]; simpl; [done|].
  rewrite length_app, Hg, IH. lia.
Qed.
End Loops.

Lemma length_range (n : Z) : length (range n) = Z.to_nat n.
Proof. unfold range. by rewrite length_map, length_seq. Qed.

Lemma range_pos (n : Z) :
  1 <= n -> range n = 0 :: map Z.of_nat (seq 1 (Z.to_nat n - 1)).
Proof.
  intros Hn. unfold range.
  replace (Z.to_nat n) with (Datatypes.S (Z.to_nat n - 1)) at 1 by lia.
  reflexivity.
Qed.

(** ** Symmetry expansion *)
Section SymmetryExpansion.
Context {S : Scalar}.
Import coil.

Lemma apply_symmetries_to_curves_eq base_curves nfp stellsym :
  apply_symmetries_to_curves base_curves nfp stellsym
  = flat_map (fun k =>
      flat_map (fun flip => map (curve_copy nfp k flip) base_curves)
               (flip_list stellsym))
      (range nfp).
Proof.
  unfold apply_symmetries_to_curves.
  rewrite (foldl_appending _ (fun k =>
    flat_map (fun flip => map (curve_copy nfp k flip) base_curves)
             (flip_list stellsym))); [done|].
  intros acc k.
  rewrite (foldl_appending _ (fun flip => map (curve_copy nfp k flip) base_curves));
    [done|].
  intros acc' flip.
  rewrite <- (foldl_index_loop_all (curve_copy nfp k flip)).
  apply foldl_ext_all. intros acc'' i. unfold curve_copy.
  destruct (base_curves !! i); [|done]. by destruct ((k =? 0) && negb flip).
Qed.

Lemma apply_symmetries_to_currents_eq base_currents nfp stellsym :
  apply_symmetries_to_currents base_currents nfp stellsym
  = flat_map (fun _ : Z =>
      flat_map (fun flip => map (current_copy flip) base_currents)
               (flip_list stellsym))
      (range nfp).
Proof.
  unfold apply_symmetries_to_currents.
  rewrite (foldl_appending _ (fun _ : Z =>
    flat_map (fun flip => map (current_copy flip) base_currents)
             (flip_list stellsym))); [done|].
  intros acc k.
  rewrite (foldl_appending _ (fun flip => map (current_copy flip) base_currents));
    [done|].
  intros acc' flip.
  by rewrite <- (foldl_index_loop_all (current_copy flip)).
Qed.

Lemma length_flip_list stellsym :
  length (flip_list stellsym) = Z.to_nat (1 + int_of_bool stellsym).
Proof. by destruct stellsym. Qed.

Lemma length_apply_symmetries_to_curves base_curves nfp stellsym :
  length (apply_symmetries_to_curves base_curves nfp stellsym)
  = (Z.to_nat nfp * (Z.to_nat (1 + int_of_bool stellsym) * length base_curves))%nat.
Proof.
  rewrite apply_symmetries_to_curves_eq.
  rewrite (length_flat_map_const _
             (Z.to_nat (1 + int_of_bool stellsym) * length base_curves)).
  - by rewrite length_range.
  - intros k. rewrite (length_flat_map_const _ (length base_curves)).
    + by rewrite length_flip_list.
    + intros flip. by rewrite length_map.
Qed.

Lemma length_apply_symmetries_to_currents base_currents nfp stellsym :
  length (apply_symmetries_to_currents base_currents nfp stellsym)
  = (Z.to_nat nfp * (Z.to_nat (1 + int_of_bool stellsym) * length base_currents))%nat.
Proof.
  rewrite apply_symmetries_to_currents_eq.
  rewrite (length_flat_map_const _
             (Z.to_nat (1 + int_of_bool stellsym) * length base_currents)).
  - by rewrite length_range.
  - intros k. rewrite (length_flat_map_const _ (length base_currents)).
    + by rewrite length_flip_list.
    + intros flip. by rewrite length_map.
Qed.
End SymmetryExpansion.

Section CoilsViaSymmetries.
Context {S : Scalar}.
Import coil.

(** C2.  For [n] curves, [n] currents, [nfp >= 1] and either value of
    [stellsym], [coils_via_symmetries] returns a list of exactly
    [n * nfp * (1 + int(stellsym))] coils. *)
Theorem coils_via_symmetries_count
    (curves : list Curve) (currents : list CurrentBase)
    (nfp : Z) (stellsym : bool) (n : nat) :
  length curves = n -> length currents = n -> 1 <= nfp ->
  exists coils,
    coils_via_symmetries curves currents nfp stellsym = inr coils /\
    Z.of_nat (length coils) = Z.of_nat n * nfp * (1 + int_of_bool stellsym).
Proof.
  intros Hcurves Hcurrents Hnfp. unfold coils_via_symmetries.
  rewrite Hcurves, Hcurrents, Nat.eqb_refl. simpl.
  eexists; split; [reflexivity|].
  rewrite length_zip_with, length_apply_symmetries_to_curves,
    length_apply_symmetries_to_currents, Hcurves, Hcurrents, Nat.min_id.
  destruct stellsym; simpl int_of_bool; lia.
Qed.

(** C3, as amended.  When the two input lists differ in length the
    assertion [len(curves) == len(currents)] fails: the call raises
    [AssertionError] and no list of coils is returned. *)
Theorem coils_via_symmetries_length_mismatch
    (curves : list Curve) (currents : list CurrentBase)
    (nfp : Z) (stellsym : bool) :
  length curves <> length currents ->
  coils_via_symmetries curves currents nfp stellsym = inl AssertionError /\
  forall coils, coils_via_symmetries curves currents nfp stellsym <> inr coils.
Proof.
  intros Hne. unfold coils_via_symmetries.
  apply Nat.eqb_neq in Hne. rewrite Hne. simpl. split; [done|].
  intros coils Heq. discriminate Heq.
Qed.

Lemma flip_list_head stellsym :
  exists rest, flip_list stellsym = false :: rest.
Proof. destruct stellsym; eexists; reflexivity. Qed.

Lemma map_curve_copy_base nfp (base_curves : list Curve) :
  map (curve_copy nfp 0 false) base_curves = base_curves.
Proof. induction base_curves as [|c l IH]; simpl; [done|]. by rewrite IH. Qed.

Lemma map_current_copy_base (base_currents : list CurrentBase) :
  map (current_copy false) base_currents = base_currents.
Proof. induction base_currents as [|c l IH]; simpl; [done|]. by rewrite IH. Qed.

(** C6.  With at least one rotation ([nfp >= 1]), the entries written for
    [k = 0] without reflection come first and are the base objects
    themselves: the first [n] curves are the base curves and the first
    [n] currents are the base currents, no wrapper around them. *)
Theorem base_objects_reused
    (base_curves : list Curve) (base_currents : list CurrentBase)
    (nfp : Z) (stellsym : bool) :
  1 <= nfp ->
  take (length base_curves)
       (apply_symmetries_to_curves base_curves nfp stellsym) = base_curves /\
  take (length base_currents)
       (apply_symmetries_to_currents base_currents nfp stellsym) = base_currents.
Proof.
  intros Hnfp.
  rewrite apply_symmetries_to_curves_eq, apply_symmetries_to_currents_eq.
  rewrite (range_pos nfp Hnfp).
  destruct (flip_list_head stellsym) as [rest ->]. simpl.
  rewrite map_curve_copy_base, map_current_copy_base, <- !app_assoc.
  split; apply take_app_length.
Qed.
End CoilsViaSymmetries.

(** ** Derivative maps under exact arithmetic *)
Section DerivativeAlgebra.
Context {S : Scalar}.
Hypothesis float_ring : ring_theory f_zero f_one f_add f_mul f_sub f_opp (@eq float).
Add Ring float_ring_derivative : float_ring.

Lemma array_add_zeros_r (u : list float) : array_add u (zeros (length u)) = u.
Proof.
  unfold array_add, zeros. induction u as [|a u IH]; simpl; [done|].
  rewrite IH. f_equal. ring.
Qed.

Lemma array_add_zeros_l (u : list float) : array_add (zeros (length u)) u = u.
Proof.
  unfold array_add, zeros. induction u as [|a u IH]; simpl; [done|].
  rewrite IH. f_equal. ring.
Qed.

Lemma array_scale_add (k : float) (u v : list float) :
  array_scale k (array_add u v) = array_add (array_scale k u) (array_scale k v).
Proof.
  unfold array_scale, array_add. revert v.
  induction u as [|a u IH]; intros [|b v]; simpl; try done.
  rewrite IH. f_equal. ring.
Qed.

Lemma array_scale_comm (k j : float) (u : list float) :
  array_scale k (array_scale j u) = array_scale j (array_scale k u).
Proof.
  unfold array_scale. induction u as [|a u IH]; simpl; [done|].
  rewrite IH. f_equal. ring.
Qed.

(** The zero vectors inserted for missing keys leave the entries as they
    are: accumulation is the key-wise sum. *)
Lemma lookup_deriv_add (x y : Derivative) (i : node_id) :
  deriv_add x y !! i
  = union_with (fun u v => Some (array_add u v)) (x !! i) (y !! i).
Proof.
  unfold deriv_add. rewrite lookup_merge.
  destruct (x !! i) as [u|], (y !! i) as [v|]; simpl; try done.
  - by rewrite array_add_zeros_r.
  - by rewrite array_add_zeros_l.
Qed.

Lemma deriv_add_union_with (x y : Derivative) :
  deriv_add x y = union_with (fun u v => Some (array_add u v)) x y.
Proof.
  apply map_eq. intros i. by rewrite lookup_deriv_add, lookup_union_with.
Qed.

Lemma deriv_add_empty_r (x : Derivative) : deriv_add x ∅ = x.
Proof.
  apply map_eq. intros i. rewrite lookup_deriv_add, lookup_empty.
  by destruct (x !! i).
Qed.

Lemma deriv_scale_add (k : float) (x y : Derivative) :
  deriv_scale k (deriv_add x y) = deriv_add (deriv_scale k x) (deriv_scale k y).
Proof.
  apply map_eq. intros i. unfold deriv_scale.
  rewrite lookup_fmap, !lookup_deriv_add, !lookup_fmap.
  destruct (x !! i) as [u|], (y !! i) as [v|]; simpl; try done.
  by rewrite array_scale_add.
Qed.

Lemma deriv_scale_comm (k j : float) (x : Derivative) :
  deriv_scale k (deriv_scale j x) = deriv_scale j (deriv_scale k x).
Proof.
  apply map_eq. intros i. unfold deriv_scale. rewrite !lookup_fmap.
  destruct (x !! i) as [u|]; simpl; [|done]. by rewrite array_scale_comm.
Qed.
End DerivativeAlgebra.

(** The keys of an accumulated Derivative are the keys of its two parts,
    whatever the arithmetic. *)
Lemma dom_deriv_add {S : Scalar} (x y : Derivative) :
  dom (deriv_add x y) = dom x ∪ dom y.
Proof.
  apply set_eq. intros i. rewrite elem_of_union, !elem_of_dom.
  unfold deriv_add. rewrite lookup_merge.
  destruct (x !! i) as [u|], (y !! i) as [v|]; simpl; split;
    first [ by intros [[]%is_Some_None | []%is_Some_None]
          | by intros []%is_Some_None
          | by (intros _; eauto) ].
Qed.

(** ** Currents *)
Section Currents.
Context {S : Scalar}.
Import coil.

(** A node is never one of the nodes it was built from. *)
Lemma CurrentSum_neq_left (a b : CurrentBase) : CurrentSum a b <> a.
Proof. intros Heq. apply (f_equal node_size) in Heq. simpl in Heq. lia. Qed.

Lemma CurrentSum_neq_right (a b : CurrentBase) : CurrentSum a b <> b.
Proof. intros Heq. apply (f_equal node_size) in Heq. simpl in Heq. lia. Qed.

Lemma ScaledCurrent_neq (a : CurrentBase) (k : float) : ScaledCurrent a k <> a.
Proof. intros Heq. apply (f_equal node_size) in Heq. simpl in Heq. lia. Qed.

Lemma sub_neq_right (a b : CurrentBase) : sub a b <> b.
Proof. intros Heq. apply (f_equal node_size) in Heq. simpl in Heq. lia. Qed.

Lemma py_sum_from_node (cs : list CurrentBase) (c : CurrentBase) :
  foldl (fun acc c => acc ≫= fun a => py_add a c) (Some (inr c)) cs
  = Some (inr (foldl add c cs)).
Proof.
  revert c. induction cs as [|c' cs IH]; intros c; simpl; [done|]. apply IH.
Qed.

(** C8.  [0 + c] is [c] itself, so that [sum] over a non-empty collection
    of nodes is the repeated pairwise addition that starts from the first
    node: [sum([c0, c1, ..., cm])] is [(..(c0 + c1) + ..) + cm]. *)
Theorem sum_of_currents (c : CurrentBase) (cs : list CurrentBase) :
  radd c 0 = Some c /\
  py_add (inl 0) c = Some (inr c) /\
  py_sum (c :: cs) = Some (inr (foldl add c cs)).
Proof.
  split; [done|]. split; [done|].
  unfold py_sum. simpl. apply py_sum_from_node.
Qed.

Section Exact.
Hypothesis float_ring :
  ring_theory f_zero f_one f_add f_mul f_sub f_opp (@eq float).
Add Ring float_ring_currents : float_ring.

Lemma get_value_neg (x : node_id -> float) (a : CurrentBase) :
  get_value x (neg a) = f_opp (get_value x a).
Proof. simpl. ring. Qed.

(** The cotangent of a node may be scaled before or after it is pushed
    through the node. *)
Lemma vjp_scale (c : CurrentBase) (k : float) (v : list float) :
  deriv_scale k (vjp c v) = vjp c (array_scale k v).
Proof.
  revert k v. induction c as [i|c IH j|a IHa b IHb]; intros k v; simpl.
  - unfold deriv_scale. by rewrite map_fmap_singleton.
  - by rewrite (deriv_scale_comm float_ring), IH.
  - by rewrite (deriv_scale_add float_ring), IHa, IHb.
Qed.

(** C4.  [Current.vjp(v)] is the map [{self: v}]; the [vjp] of
    [ScaledCurrent(base, k)] is what [base] returns for the cotangent
    [k * v], the map [{base: k * v}] when [base] is a [Current]; the
    [vjp] of [CurrentSum(a, b)] hands [v] unchanged to [a] and to [b] and
    is the key-wise sum of the two results. *)
Theorem current_vjp_rules (v : list float) :
  (forall self : node_id, vjp (Current self) v = {[ self := v ]}) /\
  (forall (base : CurrentBase) (k : float),
      vjp (ScaledCurrent base k) v = vjp base (array_scale k v)) /\
  (forall (base : node_id) (k : float),
      vjp (ScaledCurrent (Current base) k) v = {[ base := array_scale k v ]}) /\
  (forall a b : CurrentBase,
      vjp (CurrentSum a b) v = deriv_add (vjp a v) (vjp b v) /\
      forall i : node_id,
        vjp (CurrentSum a b) v !! i
        = union_with (fun u w => Some (array_add u w))
                     (vjp a v !! i) (vjp b v !! i)).
Proof.
  split; [done|]. split; [|split].
  - intros base k. simpl. apply vjp_scale.
  - intros base k. simpl. unfold deriv_scale. by rewrite map_fmap_singleton.
  - intros a b. split; [done|]. intros i. simpl.
    apply (lookup_deriv_add float_ring).
Qed.

(** C5.  With [stellsym = True] every period of the expansion consists
    of the [n] base currents followed by their [n] reflected copies;
    under every assignment [x] of values to the [Current] nodes a
    reflected copy of [c] has the value [-c.get_value()] and a copy
    that is not reflected has the value [c.get_value()]. *)
Theorem reflected_currents_negated
    (x : node_id -> float) (base_currents : list CurrentBase) (nfp : Z) :
  apply_symmetries_to_currents base_currents nfp true
  = flat_map (fun _ : Z => map (current_copy false) base_currents
                           ++ map (current_copy true) base_currents)
             (range nfp) /\
  (forall c, get_value x (current_copy true c) = f_opp (get_value x c)) /\
  (forall c, get_value x (current_copy false c) = get_value x c) /\
  map (get_value x) (apply_symmetries_to_currents base_currents nfp true)
  = flat_map (fun _ : Z => map (get_value x) base_currents
                           ++ map (fun c => f_opp (get_value x c)) base_currents)
             (range nfp).
Proof.
  assert (Hshape : apply_symmetries_to_currents base_currents nfp true
      = flat_map (fun _ : Z => map (current_copy false) base_currents
                               ++ map (current_copy true) base_currents)
                 (range nfp)).
  { rewrite apply_symmetries_to_currents_eq. simpl.
    induction (range nfp) as [|k l IH]; simpl; [done|].
    by rewrite IH, app_nil_r. }
  split; [done|]. split; [apply get_value_neg|]. split; [done|].
  rewrite Hshape. clear Hshape.
  induction (range nfp) as [|k l IH]; simpl; [done|].
  rewrite !map_app, IH, !map_map. f_equal. f_equal.
  apply map_ext. intros c. apply get_value_neg.
Qed.

(** C7.  [(a + b).get_value()] is [va + vb] and [(-a).get_value()] is
    [-va] (likewise [a - b] and [a * k]); each operator returns a
    node derived from its operands, different from both, that holds the
    operands as they were. *)
Theorem current_operators
    (x : node_id -> float) (a b : CurrentBase) (k : float) :
  get_value x (add a b) = f_add (get_value x a) (get_value x b) /\
  get_value x (neg a) = f_opp (get_value x a) /\
  get_value x (sub a b) = f_sub (get_value x a) (get_value x b) /\
  get_value x (mul a k) = f_mul k (get_value x a) /\
  (add a b = CurrentSum a b /\ add a b <> a /\ add a b <> b) /\
  (sub a b = CurrentSum a (neg b) /\ sub a b <> a /\ sub a b <> b) /\
  (neg a = ScaledCurrent a (f_opp f_one) /\ neg a <> a) /\
  (mul a k = ScaledCurrent a k /\ rmul a k = ScaledCurrent a k /\ mul a k <> a).
Proof.
  repeat split; try done.
  - apply get_value_neg.
  - simpl. ring.
  - apply CurrentSum_neq_left.
  - apply CurrentSum_neq_right.
  - apply CurrentSum_neq_left.
  - apply sub_neq_right.
  - apply ScaledCurrent_neq.
  - apply ScaledCurrent_neq.
Qed.
End Exact.
End Currents.

(** ** numpy arrays and broadcasting *)
Section Broadcasting.
Import fluxobjective.
Context {A B C : Type}.

(** Reading a flat array of the right size as rows loses nothing. *)
Lemma concat_chunks {T : Type} (nphi ntheta : nat) (flat : list T) :
  length flat = (nphi * ntheta)%nat -> concat (chunks nphi ntheta flat) = flat.
Proof.
  revert flat. induction nphi as [|nphi IH]; intros flat Hlen.
  - by apply nil_length_inv in Hlen as ->.
  - simpl. rewrite IH by (rewrite length_drop; lia). apply take_drop.
Qed.

Lemma stretch_same {T : Type} (n : nat) (l : list T) : stretch n n l = l.
Proof. unfold stretch. by rewrite Nat.eqb_refl. Qed.

Lemma broadcast_axis_same (n : nat) : broadcast_axis n n = Some n.
Proof. unfold broadcast_axis. by rewrite Nat.eqb_refl. Qed.

Lemma broadcast_shapes_same (shp : nat * nat) : broadcast_shapes shp shp = Some shp.
Proof.
  unfold broadcast_shapes. rewrite !broadcast_axis_same. by destruct shp.
Qed.


(** An array broadcast to its own shape is the array. *)
Lemma broadcast_to_same {T : Type} (shp : nat * nat) (flat : list T) :
  length flat = (shp.1 * shp.2)%nat ->
  broadcast_to (mkArray shp flat) shp = mkArray shp flat.
Proof.
  intros Hlen. destruct shp as [nphi ntheta]. unfold broadcast_to. simpl.
  rewrite stretch_same.
  rewrite (List.map_ext _ (fun row => row)) by (intros row; apply stretch_same).
  by rewrite List.map_id, concat_chunks.
Qed.

Lemma length_chunks {T : Type} (nphi ntheta : nat) (flat : list T) :
  length (chunks nphi ntheta flat) = nphi.
Proof.
  revert flat. induction nphi as [|nphi IH]; intros flat; simpl; [done|].
  by rewrite IH.
Qed.

Lemma Forall_length_chunks {T : Type} (nphi ntheta : nat) (flat : list T) :
  length flat = (nphi * ntheta)%nat ->
  Forall (fun row => length row = ntheta) (chunks nphi ntheta flat).
Proof.
  revert flat. induction nphi as [|nphi IH]; intros flat Hlen; simpl; constructor.
  - rewrite length_take. lia.
  - apply IH. rewrite length_drop. lia.
Qed.

Lemma length_concat_rows {T : Type} (ntheta : nat) (rows : list (list T)) :
  Forall (fun row => length row = ntheta) rows ->
  length (concat rows) = (length rows * ntheta)%nat.
Proof.
  induction 1 as [|row rows Hrow _ IH]; simpl; [done|].
  rewrite length_app, IH, Hrow. lia.
Qed.

Lemma length_repeat_each {T : Type} (n : nat) (l : list T) :
  length (flat_map (fun x => repeat x n) l) = (length l * n)%nat.
Proof.
  induction l as [|x l IH]; simpl; [done|].
  by rewrite length_app, repeat_length, IH.
Qed.

(** An axis that goes together with the length [n] and yields [n] has the
    length [n] or the length one. *)
Lemma broadcast_axis_onto (n m : nat) :
  broadcast_axis n m = Some n -> m = n \/ m = 1%nat.
Proof.
  unfold broadcast_axis.
  destruct (Nat.eqb_spec n m) as [Hnm|Hnm]; [by left|].
  destruct (Nat.eqb_spec n 1) as [Hn1|Hn1]; [intros [= Hm]; by left|].
  destruct (Nat.eqb_spec m 1) as [Hm1|Hm1]; [by right|done].
Qed.

Lemma length_stretch {T : Type} (m n : nat) (l : list T) :
  m = n \/ m = 1%nat -> length l = m -> length (stretch m n l) = n.
Proof.
  intros Hm Hl. unfold stretch.
  destruct (Nat.eqb_spec m n) as [Hmn|Hmn]; [congruence|].
  rewrite length_repeat_each. destruct Hm; [done|lia].
Qed.

Lemma Forall_stretch {T : Type} (P : T -> Prop) (m n : nat) (l : list T) :
  Forall P l -> Forall P (stretch m n l).
Proof.
  intros Hl. unfold stretch. destruct (m =? n)%nat; [done|].
  induction Hl as [|x l Hx _ IH]; simpl; [constructor|].
  apply Forall_app. split; [|done]. clear IH.
  induction n as [|n IH]; simpl; by constructor.
Qed.

(** An array that broadcasts to a shape fills it. *)
Lemma length_broadcast_to {T : Type} (a : ndarray T) (nphi ntheta : nat) :
  broadcasts_to nphi ntheta a ->
  length (data (broadcast_to a (nphi, ntheta))) = (nphi * ntheta)%nat.
Proof.
  intros [Hwf Hshp]. destruct a as [[p q] flat].
  unfold well_formed, size, broadcast_shapes in *. cbn [shape data fst snd] in *.
  destruct (broadcast_axis nphi p) as [nphi'|] eqn:Hp; [|done].
  destruct (broadcast_axis ntheta q) as [ntheta'|] eqn:Hq; [|done].
  injection Hshp as -> ->.
  apply broadcast_axis_onto in Hp, Hq.
  unfold broadcast_to. cbn [shape data fst snd].
  rewrite (length_concat_rows ntheta).
  - rewrite (length_stretch p nphi); [done|done|].
    by rewrite length_map, length_chunks.
  - apply Forall_stretch, Forall_map.
    eapply Forall_impl; [by apply Forall_length_chunks|].
    intros row Hrow. cbn. by apply length_stretch.
Qed.

(** An array of a shape broadcasts to it and stays as it is. *)
Lemma array_of_shape_broadcasts_to {T : Type} (a : ndarray T) (nphi ntheta : nat) :
  array_of_shape nphi ntheta a ->
  broadcasts_to nphi ntheta a /\ data (broadcast_to a (nphi, ntheta)) = data a.
Proof.
  intros [Hshape Hlen]. destruct a as [shp flat]. cbn [shape data] in *. subst shp.
  split; [split|].
  - done.
  - apply broadcast_shapes_same.
  - by rewrite broadcast_to_same.
Qed.

(** An operator on an array and one that broadcasts to its shape. *)
Lemma np_binop_onto (f : A -> B -> C) (shp : nat * nat) (u : list A) (b : ndarray B) :
  length u = (shp.1 * shp.2)%nat ->
  broadcast_shapes shp (shape b) = Some shp ->
  np_binop f (mkArray shp u) b
  = inr (mkArray shp (zip_with f u (data (broadcast_to b shp)))).
Proof.
  intros Hu Hshp. unfold np_binop. cbn [shape].
  by rewrite Hshp, broadcast_to_same.
Qed.

(** On two arrays of one shape an operator works entry by entry. *)
Lemma np_binop_same (f : A -> B -> C) (shp : nat * nat) (u : list A) (v : list B) :
  length u = (shp.1 * shp.2)%nat -> length v = (shp.1 * shp.2)%nat ->
  np_binop f (mkArray shp u) (mkArray shp v) = inr (mkArray shp (zip_with f u v)).
Proof.
  intros Hu Hv. unfold np_binop. cbn [shape].
  rewrite broadcast_shapes_same, !broadcast_to_same by done. done.
Qed.
End Broadcasting.

(** ** The squared-flux objective *)
Section SquaredFluxGradient.
Context {S : Scalar}.
Import fluxobjective.

Lemma length_B (field : MagneticField) : length (B field) = length (points field).
Proof. unfold B. by rewrite length_map. Qed.

(** A decorated method hands out what its body yields. *)
Lemma derivative_dec_returns {Self : Type} (call : Derivative -> Self -> list float)
    (func : Self -> exn + Derivative) (self : Self) (d : Derivative) (partials : bool) :
  func self = inr d ->
  derivative_dec call func self partials
  = inr (if partials then Partials d else Flat (call d self)).
Proof. intros Hfunc. unfold derivative_dec. by rewrite Hfunc. Qed.

(** What the statements of [dJ] compute on the entries when a target is
    given. *)
Lemma cotangent_flat_target (N : nat) (Bs ns : list vec3) (ts : list float) :
  let absn := map vec3_norm ns in
  let unitn := zip_with vec3_mul_r ns (map (f_div f_one) absn) in
  map (fun p => vec3_div_r p (f_of_int (Z.of_nat N)))
      (zip_with vec3_mul_r
         (zip_with (fun r u => vec3_scale r u)
            (zip_with f_sub (zip_with vec3_dot Bs unitn) ts) unitn)
         absn)
  = zip_with (fun bn t => cotangent_at N bn.1 bn.2 t) (zip Bs ns) ts.
Proof.
  simpl. revert Bs ts.
  induction ns as [|n ns IH]; intros [|b Bs] [|t ts]; simpl; try done.
  by rewrite IH.
Qed.

Section Exact.
Hypothesis float_ring :
  ring_theory f_zero f_one f_add f_mul f_sub f_opp (@eq float).
Add Ring float_ring_flux : float_ring.

(** Without a target the residual is [B.nhat]: a target of zero. *)
Lemma cotangent_flat_no_target (N : nat) (Bs ns : list vec3) :
  let absn := map vec3_norm ns in
  let unitn := zip_with vec3_mul_r ns (map (f_div f_one) absn) in
  map (fun p => vec3_div_r p (f_of_int (Z.of_nat N)))
      (zip_with vec3_mul_r
         (zip_with (fun r u => vec3_scale r u)
            (zip_with vec3_dot Bs unitn) unitn)
         absn)
  = zip_with (fun bn t => cotangent_at N bn.1 bn.2 t) (zip Bs ns)
             (zeros (length ns)).
Proof.
  simpl. revert Bs.
  induction ns as [|n ns IH]; intros [|b Bs]; simpl; try done.
  rewrite IH. f_equal. unfold cotangent_at, residual, unit_normal.
  do 3 f_equal. ring.
Qed.

(** [dJ] on arrays of the shape of the surface: the body yields
    [field.B_vjp] of the cotangent, which the decorator hands out as it is
    or flattened. *)
Lemma dJ_flat (call : Derivative -> SquaredFlux -> list float)
    (self : SquaredFlux) (nphi ntheta : nat) (partials : bool) :
  array_of_shape nphi ntheta (normal (surface self)) ->
  (forall t, target self = Some t -> broadcasts_to nphi ntheta t) ->
  length (points (field self)) = (nphi * ntheta)%nat ->
  dJ call self partials
  = inr (if partials
         then Partials (B_vjp (field self)
                (cotangent (B (field self)) (data (normal (surface self)))
                           (target_or_zero self)))
         else Flat (call (B_vjp (field self)
                (cotangent (B (field self)) (data (normal (surface self)))
                           (target_or_zero self))) self)).
Proof.
  intros [Hshape Hlen] Htarget Hpoints.
  unfold dJ. apply derivative_dec_returns.
  unfold cotangent, target_or_zero.
  destruct (normal (surface self)) as [shp ns]. cbn [shape data] in *. subst shp.
  unfold np_map, size. cbn [shape data fst snd].
  rewrite np_binop_same by (cbn [fst snd]; rewrite ?length_map; done).
  cbn [bind]. unfold reshape. cbn [fst snd].
  rewrite length_B, Hpoints, Nat.eqb_refl. cbn [bind].
  rewrite np_binop_same
    by (cbn [fst snd]; rewrite ?length_zip_with, ?length_map, ?length_B; lia).
  cbn [bind].
  destruct (target self) as [t|].
  - pose proof (length_broadcast_to t nphi ntheta (Htarget _ eq_refl)) as Htlen.
    destruct (Htarget _ eq_refl) as [_ Htshape].
    rewrite np_binop_onto
      by (done || cbn [fst snd]; rewrite ?length_zip_with, ?length_map, ?length_B; lia).
    cbn [bind].
    rewrite np_binop_same
      by (cbn [fst snd]; rewrite ?length_zip_with, ?length_map, ?length_B; lia).
    cbn [bind].
    rewrite np_binop_same
      by (cbn [fst snd]; rewrite ?length_zip_with, ?length_map, ?length_B; lia).
    cbn [bind data]. do 2 f_equal. rewrite <- Hlen. apply cotangent_flat_target.
  - cbn [bind].
    rewrite np_binop_same
      by (cbn [fst snd]; rewrite ?length_zip_with, ?length_map, ?length_B; lia).
    cbn [bind].
    rewrite np_binop_same
      by (cbn [fst snd]; rewrite ?length_zip_with, ?length_map, ?length_B; lia).
    cbn [bind data]. do 2 f_equal. rewrite <- Hlen. apply cotangent_flat_no_target.
Qed.

(** C1.  Let the field be evaluated at the quadrature points of the
    surface, and let the target, when one is given, broadcast to the shape
    [(nphi, ntheta)] of the surface arrays, as an array of that shape
    does.  Then the body of [dJ], which
    [dJ(partials=True)] hands out, is [field.B_vjp] applied to the
    cotangent that holds, at each of the [N = nphi * ntheta] quadrature
    points, the residual [B.nhat - target] (target zero when none was
    given) times the unit normal [nhat] times the length [|n|] of the
    surface normal, divided by [N]; and [dJ()] is that Derivative called
    on the object, the flat gradient. *)
Theorem dJ_is_B_vjp_of_cotangent (call : Derivative -> SquaredFlux -> list float)
    (self : SquaredFlux) (nphi ntheta : nat) :
  array_of_shape nphi ntheta (gamma (surface self)) ->
  array_of_shape nphi ntheta (normal (surface self)) ->
  (forall t, target self = Some t -> broadcasts_to nphi ntheta t) ->
  points (field self) = data (gamma (surface self)) ->
  length (data (normal (surface self))) = (nphi * ntheta)%nat /\
  dJ call self true
  = inr (Partials (B_vjp (field self)
           (cotangent (B (field self)) (data (normal (surface self)))
                      (target_or_zero self)))) /\
  dJ call self false
  = inr (Flat (call (B_vjp (field self)
           (cotangent (B (field self)) (data (normal (surface self)))
                      (target_or_zero self))) self)).
Proof.
  intros [_ Hgamma] Hnormal Htarget Hpoints.
  assert (Hcount : length (points (field self)) = (nphi * ntheta)%nat)
    by (by rewrite Hpoints).
  split; [by destruct Hnormal|].
  split; [exact (dJ_flat call self nphi ntheta true Hnormal Htarget Hcount)|].
  exact (dJ_flat call self nphi ntheta false Hnormal Htarget Hcount).
Qed.
End Exact.
End SquaredFluxGradient.

(** ** Filament rotations *)
Section ArrayLoops.
Context {X Y P : Type}.

Lemma zip_with_map_map {Z' : Type} (F : X -> Y -> Z') (f : P -> X) (g : P -> Y)
    (points : list P) :
  zip_with F (map f points) (map g points) = map (fun p => F (f p) (g p)) points.
Proof. induction points as [|p l IH]; simpl; [done|]. by rewrite IH. Qed.

Lemma map_repeat_length (f : Y -> X) (y : Y) (points : list P) :
  map f (repeat y (length points)) = map (fun _ => f y) points.
Proof. induction points as [|p l IH]; simpl; [done|]. by rewrite IH. Qed.

(** A loop over whole arrays whose body works entry by entry is the same
    loop run at every point. *)
Lemma foldl_pointwise {J : Type} (body : list X -> J -> list X)
    (step : P -> X -> J -> X) (points : list P) :
  (forall f j, body (map f points) j = map (fun p => step p (f p) j) points) ->
  forall js f,
    foldl body (map f points) js
    = map (fun p => foldl (step p) (f p) js) points.
Proof.
  intros Hbody js. induction js as [|j js IH]; intros f; simpl; [done|].
  by rewrite Hbody, IH.
Qed.
End ArrayLoops.

Section RotationLoops.
Context {S : Scalar}.
Import multifilament.

Lemma jaxrotation_pure_pointwise (dofs points : list float) (order : nat) :
  jaxrotation_pure dofs points order = map (rotation_at dofs order) points.
Proof.
  unfold jaxrotation_pure, rotation_at, zeros.
  rewrite map_repeat_length.
  rewrite (foldl_pointwise _
    (fun p r j =>
       f_add (f_add r (f_mul (getitem dofs (2 * j - 1)) (f_sin (phase j p))))
             (f_mul (getitem dofs (2 * j)) (f_cos (phase j p))))); [done|].
  intros f j. unfold iadd_scaled. by rewrite !zip_with_map_map.
Qed.

Lemma jaxrotationdash_pure_pointwise (dofs points : list float) (order : nat) :
  jaxrotationdash_pure dofs points order = map (rotationdash_at dofs order) points.
Proof.
  unfold jaxrotationdash_pure, rotationdash_at, zeros.
  rewrite <- (map_id (repeat f_zero (length points))), map_repeat_length.
  rewrite (foldl_pointwise _
    (fun p r j =>
       f_sub (f_add r (f_mul (dash_factor (getitem dofs (2 * j - 1)) j)
                             (f_cos (phase j p))))
             (f_mul (dash_factor (getitem dofs (2 * j)) j) (f_sin (phase j p)))));
    [done|].
  intros f j. unfold iadd_scaled, isub_scaled. by rewrite !zip_with_map_map.
Qed.

Lemma rotation_dcoeff_pointwise (points : list float) (order : nat) :
  rotation_dcoeff points order
  = map (rotation_dcoeff_row (2 * order + 1) order) points.
Proof.
  unfold rotation_dcoeff, rotation_dcoeff_row, zeros2.
  rewrite map_repeat_length.
  rewrite (foldl_pointwise _
    (fun p row j =>
       <[(2 * j + 0)%nat := f_cos (phase j p)]>
         (<[(2 * j - 1)%nat := f_sin (phase j p)]> row))); [done|].
  intros f j. unfold set_column. by rewrite !zip_with_map_map.
Qed.

Lemma rotationdash_dcoeff_pointwise (points : list float) (order : nat) :
  rotationdash_dcoeff points order
  = map (rotationdash_dcoeff_row (2 * order + 1) order) points.
Proof.
  unfold rotationdash_dcoeff, rotationdash_dcoeff_row, zeros2.
  rewrite <- (map_id (repeat (zeros (2 * order + 1)) (length points))),
    map_repeat_length.
  rewrite (foldl_pointwise _
    (fun p row j =>
       <[(2 * j + 0)%nat := f_mul (two_pi_j (-2) j) (f_sin (phase j p))]>
         (<[(2 * j - 1)%nat := f_mul (two_pi_j 2 j) (f_cos (phase j p))]> row)));
    [done|].
  intros f j. unfold set_column. by rewrite !zip_with_map_map.
Qed.

Lemma orders_S (m : nat) : orders (Datatypes.S m) = orders m ++ [Datatypes.S m].
Proof. unfold orders. by rewrite seq_S. Qed.

Lemma getitem_in_range (dofs : list float) (k : nat) :
  (k < length dofs)%nat -> getitem dofs k = nth k dofs f_zero.
Proof. intros Hk. unfold getitem. f_equal. lia. Qed.
End RotationLoops.

Section RotationExact.
Context {S : Scalar}.
Import multifilament.
Hypothesis float_ring : ring_theory f_zero f_one f_add f_mul f_sub f_opp (@eq float).
Hypothesis of_int_opp : forall z : Z, f_of_int (- z) = f_opp (f_of_int z).
Add Ring float_ring_rotation : float_ring.

Lemma dot_zeros (n : nat) (c : list float) : dot (zeros n) c = f_zero.
Proof.
  unfold dot, zeros. revert c. induction n as [|n IH]; intros [|b c]; simpl;
    try done.
  rewrite IH. ring.
Qed.

Lemma nth_insert_ne (u : list float) (i k : nat) (a : float) :
  i <> k -> nth k (<[i := a]> u) f_zero = nth k u f_zero.
Proof. intros Hne. by rewrite !nth_lookup, list_lookup_insert_ne. Qed.

(** Writing [a] over a zero entry adds [a * c[k]] to the product with [c]. *)
Lemma dot_insert_zero (u c : list float) (k : nat) (a : float) :
  (k < length u)%nat -> (k < length c)%nat -> nth k u f_zero = f_zero ->
  dot (<[k := a]> u) c = f_add (dot u c) (f_mul a (nth k c f_zero)).
Proof.
  unfold dot. revert c k.
  induction u as [|x u IH]; intros [|b c] [|k] Hu Hc Hzero; simpl in *;
    try lia.
  - subst x. ring.
  - rewrite IH by (done || lia). ring.
Qed.

(** The matrix of [rotation_dcoeff], row by row, applied to the dofs gives
    the angle; rows wider than the columns written so far end in zeros. *)
Lemma rotation_dcoeff_row_dot (width m : nat) (p : float) (c : list float) :
  (2 * m + 1 <= width)%nat -> length c = width ->
  length (rotation_dcoeff_row width m p) = width /\
  (forall k, (2 * m < k)%nat -> nth k (rotation_dcoeff_row width m p) f_zero = f_zero) /\
  dot (rotation_dcoeff_row width m p) c = rotation_at c m p.
Proof.
  intros Hm Hc. induction m as [|m IH].
  - unfold rotation_dcoeff_row, rotation_at. simpl.
    assert (Hz : length (zeros width) = width) by apply repeat_length.
    split; [by rewrite length_insert|]. split.
    + intros k Hk. rewrite nth_insert_ne by lia. apply nth_repeat.
    + rewrite dot_insert_zero, dot_zeros; [|lia|lia|apply nth_repeat].
      rewrite getitem_in_range by lia. ring.
  - destruct IH as (Hlen & Hzeros & Hdot); [lia|].
    unfold rotation_dcoeff_row, rotation_at in *.
    rewrite !orders_S, !foldl_app. cbn [foldl].
    set (row := foldl _ (<[0%nat := f_one]> (zeros width)) (orders m)) in *.
    split; [by rewrite !length_insert|]. split.
    + intros k Hk. rewrite !nth_insert_ne by lia. apply Hzeros. lia.
    + rewrite dot_insert_zero; rewrite ?length_insert; try lia.
      2:{ rewrite nth_insert_ne by lia. apply Hzeros. lia. }
      rewrite dot_insert_zero; try lia.
      2:{ apply Hzeros. lia. }
      rewrite Hdot, !getitem_in_range by lia.
      replace (2 * Datatypes.S m + 0)%nat with (2 * Datatypes.S m)%nat by lia.
      ring.
Qed.

Lemma rotationdash_dcoeff_row_dot (width m : nat) (p : float) (c : list float) :
  (2 * m + 1 <= width)%nat -> length c = width ->
  length (rotationdash_dcoeff_row width m p) = width /\
  (forall k, (2 * m < k)%nat ->
             nth k (rotationdash_dcoeff_row width m p) f_zero = f_zero) /\
  dot (rotationdash_dcoeff_row width m p) c = rotationdash_at c m p.
Proof.
  intros Hm Hc. induction m as [|m IH].
  - unfold rotationdash_dcoeff_row, rotationdash_at. simpl.
    split; [apply repeat_length|]. split.
    + intros k Hk. apply nth_repeat.
    + apply dot_zeros.
  - destruct IH as (Hlen & Hzeros & Hdot); [lia|].
    unfold rotationdash_dcoeff_row, rotationdash_at in *.
    rewrite !orders_S, !foldl_app. cbn [foldl].
    set (row := foldl _ (zeros width) (orders m)) in *.
    split; [by rewrite !length_insert|]. split.
    + intros k Hk. rewrite !nth_insert_ne by lia. apply Hzeros. lia.
    + rewrite dot_insert_zero; rewrite ?length_insert; try lia.
      2:{ rewrite nth_insert_ne by lia. apply Hzeros. lia. }
      rewrite dot_insert_zero; try lia.
      2:{ apply Hzeros. lia. }
      rewrite Hdot, !getitem_in_range by lia.
      replace (2 * Datatypes.S m + 0)%nat with (2 * Datatypes.S m)%nat by lia.
      unfold two_pi_j, dash_factor.
      change (f_of_int (-2)) with (f_of_int (Z.opp 2)).
      rewrite (of_int_opp 2). ring.
Qed.

(** The angle at one point is the Fourier series of the dofs. *)
Lemma rotation_at_fourier (c : list float) (m : nat) (p : float) :
  (2 * m + 1 <= length c)%nat ->
  rotation_at c m p = f_add (nth 0 c f_zero) (fourier_terms c p m).
Proof.
  intros Hm. induction m as [|m IH].
  - unfold rotation_at. simpl. rewrite getitem_in_range by lia. ring.
  - unfold rotation_at in *. rewrite orders_S, foldl_app. cbn [foldl].
    rewrite IH by lia. rewrite !getitem_in_range by lia.
    cbn [fourier_terms]. ring.
Qed.
End RotationExact.

Section FilamentRotationJacobian.
Context {S : Scalar}.
Import multifilament.
Hypothesis float_ring : ring_theory f_zero f_one f_add f_mul f_sub f_opp (@eq float).
Hypothesis of_int_opp : forall z : Z, f_of_int (- z) = f_opp (f_of_int z).
Add Ring float_ring_jacobian : float_ring.

Lemma dot_nil_l (c : list float) : dot [] c = f_zero.
Proof. done. Qed.

Lemma dot_nil_r (u : list float) : dot u [] = f_zero.
Proof. by destruct u. Qed.

Lemma dot_cons (a b : float) (u c : list float) :
  dot (a :: u) (b :: c) = f_add (f_mul a b) (dot u c).
Proof. done. Qed.

Lemma dot_add_scale (acc row c : list float) (k : float) :
  length acc = length row ->
  dot (array_add acc (array_scale k row)) c
  = f_add (dot acc c) (f_mul k (dot row c)).
Proof.
  unfold dot, array_add, array_scale. revert row c.
  induction acc as [|a acc IH]; intros [|r row] [|b c] Hlen; simpl in *;
    try discriminate Hlen; try ring.
  rewrite IH by lia. ring.
Qed.

Lemma sopp_vjp_from (n : nat) (jac : list (list float)) (c : list float) :
  Forall (fun row => length row = n) jac ->
  forall (v acc : list float),
    length acc = n ->
    dot (foldl (fun acc vr => array_add acc (array_scale vr.1 vr.2)) acc (zip v jac)) c
    = f_add (dot acc c) (dot v (apply_matrix jac c)).
Proof.
  intros Hrows. induction Hrows as [|row jac Hrow Hrows IH]; intros v acc Hacc.
  - change (apply_matrix [] c) with (@nil float).
    rewrite dot_nil_r. destruct v; simpl; ring.
  - destruct v as [|v0 v].
    + rewrite dot_nil_l. simpl. ring.
    + change (apply_matrix (row :: jac) c) with (dot row c :: apply_matrix jac c).
      rewrite dot_cons. cbn [zip zip_with foldl]. rewrite IH.
      2:{ unfold array_add, array_scale. rewrite length_zip_with, length_map.
          cbn [fst snd]. lia. }
      cbn [fst snd]. rewrite dot_add_scale by congruence. ring.
Qed.

(** The array returned by [sopp.vjp(v, jac)] is the adjoint of [jac]:
    paired with any [c] it gives [v] paired with [jac] applied to [c]. *)
Lemma sopp_vjp_adjoint (n : nat) (jac : list (list float)) (v c : list float) :
  Forall (fun row => length row = n) jac ->
  dot (sopp_vjp v jac n) c = dot v (apply_matrix jac c).
Proof.
  intros Hrows. unfold sopp_vjp.
  rewrite (sopp_vjp_from n jac c Hrows) by apply repeat_length.
  rewrite dot_zeros by done. ring.
Qed.

Lemma rotation_dcoeff_rows (points : list float) (order : nat) :
  Forall (fun row => length row = (2 * order + 1)%nat) (rotation_dcoeff points order).
Proof.
  rewrite rotation_dcoeff_pointwise. apply Forall_map, Forall_forall.
  intros p _. simpl.
  apply (rotation_dcoeff_row_dot float_ring (2 * order + 1) order p
           (zeros (2 * order + 1))); [lia|apply repeat_length].
Qed.

Lemma rotationdash_dcoeff_rows (points : list float) (order : nat) :
  Forall (fun row => length row = (2 * order + 1)%nat)
         (rotationdash_dcoeff points order).
Proof.
  rewrite rotationdash_dcoeff_pointwise. apply Forall_map, Forall_forall.
  intros p _. simpl.
  apply (rotationdash_dcoeff_row_dot float_ring of_int_opp (2 * order + 1) order p
           (zeros (2 * order + 1))); [lia|apply repeat_length].
Qed.

Lemma jaxrotation_pure_linear (c points : list float) (order : nat) :
  length c = (2 * order + 1)%nat ->
  jaxrotation_pure c points order = apply_matrix (rotation_dcoeff points order) c.
Proof.
  intros Hc. rewrite jaxrotation_pure_pointwise, rotation_dcoeff_pointwise.
  unfold apply_matrix. rewrite map_map. apply map_ext. intros p.
  symmetry. by apply (rotation_dcoeff_row_dot float_ring); [lia|].
Qed.

Lemma jaxrotationdash_pure_linear (c points : list float) (order : nat) :
  length c = (2 * order + 1)%nat ->
  jaxrotationdash_pure c points order
  = apply_matrix (rotationdash_dcoeff points order) c.
Proof.
  intros Hc. rewrite jaxrotationdash_pure_pointwise, rotationdash_dcoeff_pointwise.
  unfold apply_matrix. rewrite map_map. apply map_ext. intros p.
  symmetry. by apply (rotationdash_dcoeff_row_dot float_ring of_int_opp); [lia|].
Qed.

(** C9.  For a [FilamentRotation] of order [m] with dofs [c] (there are
    [2*m+1] of them) and any quadrature points, [alpha] is the matrix
    [rotation_dcoeff(quadpoints, m)] applied to [c], which is the Fourier
    series [c[0] + sum_j c[2j-1] sin(2 pi j p) + c[2j] cos(2 pi j p)],
    and [alphadash] is [rotationdash_dcoeff(quadpoints, m)] applied to
    [c].  The matrices that the constructor stores are these matrices at
    the object's own quadrature points, and what
    [dalpha_by_dcoeff_vjp] and [dalphadash_by_dcoeff_vjp] return for a
    cotangent [v] is their adjoint applied to [v]. *)
Theorem filament_rotation_linear
    (full_x : node_id -> list float) (id : node_id)
    (quadpoints : list float) (m : nat) :
  let r := FilamentRotation_init id quadpoints m in
  let c := full_x id in
  length c = (2 * m + 1)%nat ->
  (forall points,
      alpha full_x (IsFilamentRotation r) points
      = apply_matrix (rotation_dcoeff points m) c /\
      alpha full_x (IsFilamentRotation r) points
      = map (fourier_series c m) points /\
      alphadash full_x (IsFilamentRotation r) points
      = apply_matrix (rotationdash_dcoeff points m) c) /\
  jac r = rotation_dcoeff quadpoints m /\
  jacdash r = rotationdash_dcoeff quadpoints m /\
  (forall points v,
      (exists g, dalpha_by_dcoeff_vjp (IsFilamentRotation r) points v = {[ id := g ]} /\
                 dot g c = dot v (alpha full_x (IsFilamentRotation r) quadpoints)) /\
      (exists g, dalphadash_by_dcoeff_vjp (IsFilamentRotation r) points v = {[ id := g ]} /\
                 dot g c = dot v (alphadash full_x (IsFilamentRotation r) quadpoints))).
Proof.
  intros r c Hc. split; [|split; [done|split; [done|]]].
  - intros points. simpl. fold c. split; [by apply jaxrotation_pure_linear|].
    split; [|by apply jaxrotationdash_pure_linear].
    rewrite jaxrotation_pure_pointwise. apply map_ext. intros p.
    apply (rotation_at_fourier float_ring). lia.
  - intros points v. split; eexists; (split; [reflexivity|]); simpl; fold c.
    + rewrite (sopp_vjp_adjoint _ _ _ _ (rotation_dcoeff_rows quadpoints m)).
      by rewrite jaxrotation_pure_linear.
    + rewrite (sopp_vjp_adjoint _ _ _ _ (rotationdash_dcoeff_rows quadpoints m)).
      by rewrite jaxrotationdash_pure_linear.
Qed.
End FilamentRotationJacobian.

(** ** A [CurveShiftedRotated] without rotation *)
Section NoRotation.
Context {S : Scalar}.
Import multifilament.
Hypothesis float_ring : ring_theory f_zero f_one f_add f_mul f_sub f_opp (@eq float).

Lemma zeros_all_zero (n : nat) : Forall (fun a => a = f_zero) (zeros n).
Proof. unfold zeros. induction n as [|n IH]; simpl; by constructor. Qed.

(** C10.  Constructed with [rotation = None], a [CurveShiftedRotated]
    holds a [ZeroRotation]: [alpha] and [alphadash] are the zero array,
    the two adjoints of the rotation are the empty Derivative, the
    dependency list holds the base curve alone, and
    [dgamma_by_dcoeff_vjp] and [dgammadash_by_dcoeff_vjp] are the sums
    of the adjoints of the base curve alone, so that every key of the
    result is a key that the base curve reported. *)
Theorem no_rotation_gradient
    (jax : FrameAdjoints) (full_x : node_id -> list float)
    (c : Curve) (dn db : float) (v : list vec3) :
  let self := CurveShiftedRotated_init c dn db None in
  let zero := zeros (length (curve_quadpoints c)) in
  let g := curve_gamma c in
  let gd := curve_gammadash c in
  let gdd := curve_gammadashdash c in
  let cot := (zeros_like v, map (vec3_scale dn) v, map (vec3_scale db) v) in
  let dgamma_parts :=
    (curve_dgamma_by_dcoeff_vjp c
       (vec3s_add v (rotated_centroid_frame_dcoeff_vjp0 jax g gd zero cot)),
     curve_dgammadash_by_dcoeff_vjp c
       (rotated_centroid_frame_dcoeff_vjp1 jax g gd zero cot)) in
  let dgammadash_parts :=
    (curve_dgamma_by_dcoeff_vjp c
       (rotated_centroid_frame_dash_dcoeff_vjp0 jax g gd gdd zero zero cot),
     curve_dgammadash_by_dcoeff_vjp c
       (vec3s_add v (rotated_centroid_frame_dash_dcoeff_vjp1 jax g gd gdd zero zero cot)),
     curve_dgammadashdash_by_dcoeff_vjp c
       (rotated_centroid_frame_dash_dcoeff_vjp2 jax g gd gdd zero zero cot)) in
  rotation self = ZeroRotation zero /\
  Forall (fun a => a = f_zero) zero /\
  (forall points,
      alpha full_x (rotation self) points = zero /\
      alphadash full_x (rotation self) points = zero) /\
  (forall points va,
      dalpha_by_dcoeff_vjp (rotation self) points va = ∅ /\
      dalphadash_by_dcoeff_vjp (rotation self) points va = ∅) /\
  depends_on self = [inl c] /\
  dgamma_by_dcoeff_vjp jax full_x self v
  = deriv_add dgamma_parts.1 dgamma_parts.2 /\
  dom (dgamma_by_dcoeff_vjp jax full_x self v)
  = dom dgamma_parts.1 ∪ dom dgamma_parts.2 /\
  dgammadash_by_dcoeff_vjp jax full_x self v
  = deriv_add (deriv_add dgammadash_parts.1.1 dgammadash_parts.1.2)
              dgammadash_parts.2 /\
  dom (dgammadash_by_dcoeff_vjp jax full_x self v)
  = dom dgammadash_parts.1.1 ∪ dom dgammadash_parts.1.2
    ∪ dom dgammadash_parts.2.
Proof.
  intros self zero g gd gdd cot dgamma_parts dgammadash_parts.
  assert (Hdgamma : dgamma_by_dcoeff_vjp jax full_x self v
                    = deriv_add dgamma_parts.1 dgamma_parts.2).
  { unfold dgamma_by_dcoeff_vjp. simpl.
    by rewrite (deriv_add_empty_r float_ring). }
  assert (Hdgammadash : dgammadash_by_dcoeff_vjp jax full_x self v
            = deriv_add (deriv_add dgammadash_parts.1.1 dgammadash_parts.1.2)
                        dgammadash_parts.2).
  { unfold dgammadash_by_dcoeff_vjp. simpl.
    by rewrite !(deriv_add_empty_r float_ring). }
  split; [done|]. split; [apply zeros_all_zero|].
  split; [done|]. split; [done|]. split; [done|].
  split; [done|]. split; [by rewrite Hdgamma, dom_deriv_add|].
  split; [done|]. by rewrite Hdgammadash, !dom_deriv_add.
Qed.
End NoRotation.

(** ** The theorems at the sample objects *)
Section Samples.
Import coil fluxobjective multifilament samples.

Lemma Z_float_ring :
  ring_theory (@f_zero ZScalar) f_one f_add f_mul f_sub f_opp (@eq float).
Proof. exact InitialRing.Zth. Qed.

Lemma Z_of_int_opp : forall z : Z, @f_of_int ZScalar (- z) = f_opp (f_of_int z).
Proof. reflexivity. Qed.

(** The two hypotheses of exact arithmetic hold of the real numbers. *)
Lemma R_float_ring :
  ring_theory (@f_zero RScalar) f_one f_add f_mul f_sub f_opp (@eq float).
Proof. exact RTheory. Qed.

Lemma R_of_int_opp : forall z : Z, @f_of_int RScalar (- z) = f_opp (f_of_int z).
Proof. exact opp_IZR. Qed.

Example coils_via_symmetries_sample :
  coils_via_symmetries (S := ZScalar) [CurveObject 1] [Current 3] 2 true
  = inr [ mkCoil (CurveObject 1) (Current 3);
          mkCoil (RotatedCurve (S := ZScalar) (CurveObject 1) 0 true)
                 (ScaledCurrent (S := ZScalar) (Current 3) (-1));
          mkCoil (RotatedCurve (S := ZScalar) (CurveObject 1) 3 false) (Current 3);
          mkCoil (RotatedCurve (S := ZScalar) (CurveObject 1) 3 true)
                 (ScaledCurrent (S := ZScalar) (Current 3) (-1)) ].
Proof. reflexivity. Qed.

Example rotation_dcoeff_sample :
  rotation_dcoeff (S := ZScalar) [0; 1] 1 = [[1; 0; 1]; [1; 0; 1]] /\
  jaxrotation_pure (S := ZScalar) [1; 2; 3] [0; 1] 1 = [4; 4].
Proof. split; reflexivity. Qed.

Example py_sum_empty : py_sum (S := ZScalar) [] = Some (inl 0%Z).
Proof. reflexivity. Qed.

Example py_sum_sample :
  py_sum (S := ZScalar) [Current 1; Current 2; Current 3]
  = Some (inr (CurrentSum (CurrentSum (Current 1) (Current 2)) (Current 3))).
Proof. reflexivity. Qed.

Example vjp_sample :
  vjp (S := ZScalar) (CurrentSum (Current 3) (Current 4)) [5]
  = {[ 3%positive := [5]; 4%positive := [5] ]} /\
  vjp (S := ZScalar) (CurrentSum (Current 3) (ScaledCurrent (S := ZScalar) (Current 3) 2)) [5]
  = {[ 3%positive := [15] ]}.
Proof. split; vm_compute; reflexivity. Qed.

Example apply_symmetries_to_currents_sample :
  map (get_value current_values) (apply_symmetries_to_currents base_currents 2 true)
  = [9; 50; -9; -50; 9; 50; -9; -50].
Proof. reflexivity. Qed.

Example jaxrotationdash_sample :
  rotationdash_dcoeff (S := ZScalar) [0; 1] 1 = [[0; 6; 0]; [0; 6; 0]] /\
  jaxrotationdash_pure (S := ZScalar) [1; 2; 3] [0; 1] 1 = [12; 12].
Proof. split; reflexivity. Qed.

Lemma coils_via_symmetries_count_witness :
  length base_curves = 2%nat /\ length base_currents = 2%nat /\ 1 <= 2 /\
  exists coils,
    coils_via_symmetries base_curves base_currents 2 true = inr coils /\
    Z.of_nat (length coils) = Z.of_nat 2 * 2 * (1 + int_of_bool true).
Proof.
  repeat split; [lia|].
  apply (coils_via_symmetries_count base_curves base_currents 2 true 2);
    [reflexivity|reflexivity|lia].
Defined.

Lemma coils_via_symmetries_length_mismatch_witness :
  length base_curves <> length [Current (S := ZScalar) 3] /\
  coils_via_symmetries base_curves [Current 3] 2 true = inl AssertionError /\
  forall coils, coils_via_symmetries base_curves [Current 3] 2 true <> inr coils.
Proof.
  split; [simpl; lia|].
  apply (coils_via_symmetries_length_mismatch base_curves [Current 3] 2 true).
  simpl. lia.
Defined.

(** C3 as stated fails: for two curves and one current the call does not
    fail with [DimensionMismatch]; it raises [AssertionError]. *)
Lemma coils_via_symmetries_mismatch_is_assertion :
  ~ (length base_curves <> length [Current (S := ZScalar) 3] ->
     coils_via_symmetries base_curves [Current 3] 2 true = inl DimensionMismatch).
Proof.
  intros Hstated.
  assert (Hne : length base_curves <> length [Current (S := ZScalar) 3])
    by (simpl; lia).
  specialize (Hstated Hne). vm_compute in Hstated. discriminate Hstated.
Qed.

Lemma base_objects_reused_witness :
  1 <= 2 /\
  take (length base_curves) (apply_symmetries_to_curves base_curves 2 true)
  = base_curves /\
  take (length base_currents) (apply_symmetries_to_currents base_currents 2 true)
  = base_currents.
Proof.
  split; [lia|]. apply (base_objects_reused base_curves base_currents 2 true). lia.
Defined.

Example dJ_sample :
  dJ call_on_field flux true = inr (Partials {[ 7%positive := [1; 1] ]}) /\
  dJ call_on_field flux false = inr (Flat (S := ZScalar) [1; 1]) /\
  dJ call_on_field flux_no_target true = inr (Partials {[ 7%positive := [1; 1] ]}) /\
  dJ call_on_field flux_single_target true = inr (Partials {[ 7%positive := [1; 0] ]}) /\
  dJ call_on_field flux_wide_target true = inl ValueError.
Proof. repeat split; vm_compute; reflexivity. Qed.

Lemma current_vjp_rules_witness :
  ring_theory (@f_zero ZScalar) f_one f_add f_mul f_sub f_opp (@eq float) /\
  (forall self : node_id, vjp (S := ZScalar) (Current self) [2] = {[ self := [2] ]}) /\
  (forall (base : @CurrentBase ZScalar) (k : @float ZScalar),
      vjp (ScaledCurrent base k) [2] = vjp base (array_scale k [2])) /\
  (forall (base : node_id) (k : @float ZScalar),
      vjp (S := ZScalar) (ScaledCurrent (Current base) k) [2]
      = {[ base := array_scale k [2] ]}) /\
  (forall a b : @CurrentBase ZScalar,
      vjp (CurrentSum a b) [2] = deriv_add (vjp a [2]) (vjp b [2]) /\
      forall i : node_id,
        vjp (CurrentSum a b) [2] !! i
        = union_with (fun u w => Some (array_add u w))
                     (vjp a [2] !! i) (vjp b [2] !! i)).
Proof.
  split; [exact Z_float_ring|].
  exact (current_vjp_rules (S := ZScalar) Z_float_ring [2]).
Defined.

Lemma reflected_currents_negated_witness :
  ring_theory (@f_zero ZScalar) f_one f_add f_mul f_sub f_opp (@eq float) /\
  apply_symmetries_to_currents base_currents 2 true
  = flat_map (fun _ : Z => map (current_copy false) base_currents
                           ++ map (current_copy true) base_currents)
             (range 2) /\
  (forall c, get_value current_values (current_copy true c)
             = f_opp (get_value current_values c)) /\
  (forall c, get_value current_values (current_copy false c)
             = get_value current_values c) /\
  map (get_value current_values) (apply_symmetries_to_currents base_currents 2 true)
  = flat_map (fun _ : Z => map (get_value current_values) base_currents
                           ++ map (fun c => f_opp (get_value current_values c))
                                  base_currents)
             (range 2).
Proof.
  split; [exact Z_float_ring|].
  exact (reflected_currents_negated (S := ZScalar) Z_float_ring
           current_values base_currents 2).
Defined.

Lemma current_operators_witness :
  let a : @CurrentBase ZScalar := Current 3 in
  let b : @CurrentBase ZScalar := ScaledCurrent (S := ZScalar) (Current 4) 5 in
  let k : @float ZScalar := 2 in
  let x := current_values in
  ring_theory (@f_zero ZScalar) f_one f_add f_mul f_sub f_opp (@eq float) /\
  get_value x (add a b) = f_add (get_value x a) (get_value x b) /\
  get_value x (neg a) = f_opp (get_value x a) /\
  get_value x (sub a b) = f_sub (get_value x a) (get_value x b) /\
  get_value x (mul a k) = f_mul k (get_value x a) /\
  (add a b = CurrentSum a b /\ add a b <> a /\ add a b <> b) /\
  (sub a b = CurrentSum a (neg b) /\ sub a b <> a /\ sub a b <> b) /\
  (neg a = ScaledCurrent a (f_opp f_one) /\ neg a <> a) /\
  (mul a k = ScaledCurrent a k /\ rmul a k = ScaledCurrent a k /\ mul a k <> a).
Proof.
  intros a b k x. split; [exact Z_float_ring|].
  exact (current_operators (S := ZScalar) Z_float_ring x a b k).
Defined.

Lemma dJ_is_B_vjp_of_cotangent_witness :
  ring_theory (@f_zero ZScalar) f_one f_add f_mul f_sub f_opp (@eq float) /\
  array_of_shape 1 2 (gamma (surface flux)) /\
  array_of_shape 1 2 (normal (surface flux)) /\
  (forall t, target flux = Some t -> broadcasts_to 1 2 t) /\
  points (field flux) = data (gamma (surface flux)) /\
  length (data (normal (surface flux))) = (1 * 2)%nat /\
  dJ call_on_field flux true
  = inr (Partials (B_vjp (field flux)
           (cotangent (B (field flux)) (data (normal (surface flux)))
                      (target_or_zero flux)))) /\
  dJ call_on_field flux false
  = inr (Flat (call_on_field (B_vjp (field flux)
           (cotangent (B (field flux)) (data (normal (surface flux)))
                      (target_or_zero flux))) flux)).
Proof.
  assert (H1 : array_of_shape 1 2 (gamma (surface flux))) by (split; reflexivity).
  assert (H2 : array_of_shape 1 2 (normal (surface flux))) by (split; reflexivity).
  assert (H3 : forall t, target flux = Some t -> broadcasts_to 1 2 t).
  { intros t Ht. injection Ht as <-. split; reflexivity. }
  assert (H4 : points (field flux) = data (gamma (surface flux)))
    by reflexivity.
  split; [exact Z_float_ring|]. do 4 (split; [assumption|]).
  exact (dJ_is_B_vjp_of_cotangent (S := ZScalar) Z_float_ring call_on_field flux 1 2
           H1 H2 H3 H4).
Defined.

(** C1 as the specification words it fails at three objects whose field is
    evaluated at the quadrature points of the surface.  [dJ()] hands out
    the flat gradient and no Derivative.  On a normal of length two, over
    the real numbers, the Derivative of [dJ(partials=True)] is
    [field.B_vjp] of a cotangent with the factor [|n| = 2], twice the
    stated one with the factor [|nhat| = 1].  With a target of three
    columns on a surface of two, [dJ] raises [ValueError]. *)
Lemma dJ_not_as_stated :
  dJ call_on_field flux false
  <> inr (Partials (B_vjp (field flux)
            (stated_cotangent (B (field flux)) (data (normal (surface flux)))
                              (target_or_zero flux)))) /\
  dJ call_on_real_field flux_long_normal true
  <> inr (Partials (B_vjp (field flux_long_normal)
            (stated_cotangent (B (field flux_long_normal))
               (data (normal (surface flux_long_normal)))
               (target_or_zero flux_long_normal)))) /\
  dJ call_on_field flux_wide_target true = inl ValueError /\
  dJ call_on_field flux_wide_target false = inl ValueError.
Proof.
  split; [|split; [|split; reflexivity]].
  - intros H. vm_compute in H. discriminate H.
  - intros H.
    rewrite (dJ_flat R_float_ring call_on_real_field flux_long_normal 1 1 true) in H;
      [|by split|by intros t [=]|done].
    assert (Hentry : forall d1 d2 : gmap node_id (list (@float RScalar)),
              inr (Partials d1) = @inr exn _ (Partials d2) ->
              d1 !! 7%positive = d2 !! 7%positive) by (by intros d1 d2 [= ->]).
    apply Hentry in H. clear Hentry.
    unfold B_vjp, flux_long_normal, init, field_along_normal in H.
    cbn [field set_points kernel_B_vjp points] in H.
    rewrite !lookup_singleton in H. simpl in H. injection H as H.
    replace (0 * 0 + 0 * 0 + 2 * 2)%R with (2 * 2)%R in H by ring.
    rewrite sqrt_square in H by lra.
    replace (0 * (1 / 2) * (0 * (1 / 2)) + 0 * (1 / 2) * (0 * (1 / 2))
             + 2 * (1 / 2) * (2 * (1 / 2)))%R with (1 * 1)%R in H by lra.
    rewrite sqrt_square in H by lra.
    change (IZR (Z.of_nat 1)) with 1%R in H.
    lra.
Qed.

Lemma filament_rotation_linear_witness :
  let full_x := rotation_dofs in
  let id : node_id := 8%positive in
  let quadpoints : list (@float ZScalar) := [0; 1] in
  let m := 1%nat in
  let r := FilamentRotation_init id quadpoints m in
  let c := full_x id in
  ring_theory (@f_zero ZScalar) f_one f_add f_mul f_sub f_opp (@eq float) /\
  (forall z : Z, @f_of_int ZScalar (- z) = f_opp (f_of_int z)) /\
  length c = (2 * m + 1)%nat /\
  (forall points,
      alpha full_x (IsFilamentRotation r) points
      = apply_matrix (rotation_dcoeff points m) c /\
      alpha full_x (IsFilamentRotation r) points
      = map (fourier_series c m) points /\
      alphadash full_x (IsFilamentRotation r) points
      = apply_matrix (rotationdash_dcoeff points m) c) /\
  jac r = rotation_dcoeff quadpoints m /\
  jacdash r = rotationdash_dcoeff quadpoints m /\
  (forall points v,
      (exists g, dalpha_by_dcoeff_vjp (IsFilamentRotation r) points v = {[ id := g ]} /\
                 dot g c = dot v (alpha full_x (IsFilamentRotation r) quadpoints)) /\
      (exists g, dalphadash_by_dcoeff_vjp (IsFilamentRotation r) points v = {[ id := g ]} /\
                 dot g c = dot v (alphadash full_x (IsFilamentRotation r) quadpoints))).
Proof.
  intros full_x id quadpoints m r c.
  split; [exact Z_float_ring|]. split; [exact Z_of_int_opp|].
  split; [reflexivity|].
  exact (filament_rotation_linear (S := ZScalar) Z_float_ring Z_of_int_opp
           full_x id quadpoints m eq_refl).
Defined.

Lemma no_rotation_gradient_witness :
  let jax := frame_adjoints in
  let full_x := rotation_dofs in
  let c := base_curve in
  let dn : @float ZScalar := 2 in
  let db : @float ZScalar := 3 in
  let v : list (@vec3 ZScalar) := [(1, 1, 1); (2, 2, 2)] in
  let self := CurveShiftedRotated_init c dn db None in
  let zero := zeros (length (curve_quadpoints c)) in
  let g := curve_gamma c in
  let gd := curve_gammadash c in
  let gdd := curve_gammadashdash c in
  let cot := (zeros_like v, map (vec3_scale dn) v, map (vec3_scale db) v) in
  let dgamma_parts :=
    (curve_dgamma_by_dcoeff_vjp c
       (vec3s_add v (rotated_centroid_frame_dcoeff_vjp0 jax g gd zero cot)),
     curve_dgammadash_by_dcoeff_vjp c
       (rotated_centroid_frame_dcoeff_vjp1 jax g gd zero cot)) in
  let dgammadash_parts :=
    (curve_dgamma_by_dcoeff_vjp c
       (rotated_centroid_frame_dash_dcoeff_vjp0 jax g gd gdd zero zero cot),
     curve_dgammadash_by_dcoeff_vjp c
       (vec3s_add v (rotated_centroid_frame_dash_dcoeff_vjp1 jax g gd gdd zero zero cot)),
     curve_dgammadashdash_by_dcoeff_vjp c
       (rotated_centroid_frame_dash_dcoeff_vjp2 jax g gd gdd zero zero cot)) in
  ring_theory (@f_zero ZScalar) f_one f_add f_mul f_sub f_opp (@eq float) /\
  rotation self = ZeroRotation zero /\
  Forall (fun a => a = f_zero) zero /\
  (forall points,
      alpha full_x (rotation self) points = zero /\
      alphadash full_x (rotation self) points = zero) /\
  (forall points va,
      dalpha_by_dcoeff_vjp (rotation self) points va = ∅ /\
      dalphadash_by_dcoeff_vjp (rotation self) points va = ∅) /\
  depends_on self = [inl c] /\
  dgamma_by_dcoeff_vjp jax full_x self v
  = deriv_add dgamma_parts.1 dgamma_parts.2 /\
  dom (dgamma_by_dcoeff_vjp jax full_x self v)
  = dom dgamma_parts.1 ∪ dom dgamma_parts.2 /\
  dgammadash_by_dcoeff_vjp jax full_x self v
  = deriv_add (deriv_add dgammadash_parts.1.1 dgammadash_parts.1.2)
              dgammadash_parts.2 /\
  dom (dgammadash_by_dcoeff_vjp jax full_x self v)
  = dom dgammadash_parts.1.1 ∪ dom dgammadash_parts.1.2
    ∪ dom dgammadash_parts.2.
Proof.
  intros jax full_x c dn db v.
  split; [exact Z_float_ring|].
  exact (no_rotation_gradient (S := ZScalar) Z_float_ring jax full_x c dn db v).
Defined.

Example no_rotation_gradient_sample :
  dgamma_by_dcoeff_vjp frame_adjoints rotation_dofs
    (CurveShiftedRotated_init base_curve 2 3 None) [(1, 1, 1); (2, 2, 2)]
  = {[ 9%positive := [6; 12] ]}.
Proof. vm_compute. reflexivity. Qed.
End Samples.

(** * Further properties of the code *)

(** ** The layout of the symmetry expansion *)
Section ExpansionLayout.
Context {A B C : Type}.

Lemma zip_with_flat_map {X : Type} (f : A -> B -> C) (g : X -> list A) (h : X -> list B)
    (l : list X) :
  (forall x, length (g x) = length (h x)) ->
  zip_with f (flat_map g l) (flat_map h l)
  = flat_map (fun x => zip_with f (g x) (h x)) l.
Proof.
  intros Hlen. induction l as [|x l IH]; simpl; [done|].
  by rewrite zip_with_app, IH.
Qed.

Lemma zip_with_maps {A' B' : Type} (f : A -> B -> C) (a : A' -> A) (b : B' -> B)
    (l : list A') (k : list B') :
  zip_with f (map a l) (map b k) = zip_with (fun x y => f (a x) (b y)) l k.
Proof.
  revert k. induction l as [|x l IH]; intros [|y k]; simpl; try done.
  by rewrite IH.
Qed.

(** The entry [b] of the block of the [a]-th element, when all blocks have
    [n] entries. *)
Lemma lookup_flat_map_block (g : A -> list B) (n : nat) (l : list A)
    (a b : nat) (x : A) (y : B) :
  (forall x, length (g x) = n) ->
  l !! a = Some x -> g x !! b = Some y ->
  flat_map g l !! (a * n + b)%nat = Some y.
Proof.
  intros Hlen. revert a. induction l as [|x' l IH]; intros a Ha Hb; [done|].
  destruct a as [|a]; simpl in *.
  - injection Ha as ->. by apply lookup_app_l_Some.
  - rewrite lookup_app_r by (rewrite Hlen; lia).
    rewrite Hlen. replace (n + a * n + b - n)%nat with (a * n + b)%nat by lia.
    by apply IH.
Qed.
End ExpansionLayout.

Lemma lookup_range (n k : Z) : 0 <= k < n -> range n !! Z.to_nat k = Some k.
Proof.
  intros Hk. unfold range.
  rewrite list_lookup_fmap, lookup_seq_lt by lia. simpl. f_equal. lia.
Qed.

Lemma range_nonpos (n : Z) : n <= 0 -> range n = [].
Proof. intros Hn. unfold range. by replace (Z.to_nat n) with 0%nat by lia. Qed.

Section CoilLayout.
Context {S : Scalar}.
Import coil.

(** The coils, period by period and reflection by reflection. *)
Lemma coils_via_symmetries_eq (curves : list Curve) (currents : list CurrentBase)
    (nfp : Z) (stellsym : bool) :
  length curves = length currents ->
  coils_via_symmetries curves currents nfp stellsym
  = inr (flat_map (fun k =>
           flat_map (fun flip =>
             zip_with (fun c I => mkCoil (curve_copy nfp k flip c) (current_copy flip I))
                      curves currents)
             (flip_list stellsym))
           (range nfp)).
Proof.
  intros Hlen. unfold coils_via_symmetries.
  apply Nat.eqb_eq in Hlen as Heqb. rewrite Heqb. simpl. f_equal.
  rewrite apply_symmetries_to_curves_eq, apply_symmetries_to_currents_eq.
  rewrite zip_with_flat_map.
  - apply flat_map_ext. intros k. rewrite zip_with_flat_map.
    + apply flat_map_ext. intros flip. apply zip_with_maps.
    + intros flip. by rewrite !length_map.
  - intros k.
    rewrite (length_flat_map_const _ (length curves)),
      (length_flat_map_const _ (length currents)); [lia| |];
      intros flip; by rewrite length_map.
Qed.

(** X1.  The coil of the rotation [k], the reflection [flip] (the [f]-th
    entry of the flip list) and the base index [i] sits at the position
    [(k * len(flip_list) + f) * n + i]; it pairs the copy of the [i]-th
    base curve with the copy of the [i]-th base current, and a copy
    without reflection carries the base current object itself. *)
Theorem coil_at_index
    (curves : list Curve) (currents : list CurrentBase) (nfp : Z) (stellsym : bool)
    (k : Z) (f i : nat) (flip : bool) (c : Curve) (I : CurrentBase) :
  length curves = length currents ->
  0 <= k < nfp ->
  flip_list stellsym !! f = Some flip ->
  curves !! i = Some c -> currents !! i = Some I ->
  exists coils,
    coils_via_symmetries curves currents nfp stellsym = inr coils /\
    coils !! ((Z.to_nat k * length (flip_list stellsym) + f) * length curves + i)%nat
    = Some (mkCoil (curve_copy nfp k flip c) (current_copy flip I)) /\
    (flip = false -> current_copy flip I = I) /\
    (flip = false -> k <> 0 ->
     curve_copy nfp k flip c = RotatedCurve c (rotation_angle k nfp) false).
Proof.
  intros Hlen Hk Hf Hc HI. eexists. split; [by apply coils_via_symmetries_eq|].
  split; [|split].
  - set (n := length curves). set (F := length (flip_list stellsym)).
    replace ((Z.to_nat k * F + f) * n + i)%nat
      with (Z.to_nat k * (F * n) + (f * n + i))%nat by lia.
    eapply (lookup_flat_map_block _ (F * n)); [|by apply lookup_range|].
    + intros k'. apply length_flat_map_const. intros flip'.
      rewrite length_zip_with. unfold n. lia.
    + eapply (lookup_flat_map_block _ n); [|exact Hf|].
      * intros flip'. rewrite length_zip_with. unfold n. lia.
      * rewrite lookup_zip_with, Hc. simpl. by rewrite HI.
  - by intros ->.
  - intros -> Hk0. unfold curve_copy.
    by destruct (Z.eqb_spec k 0).
Qed.

(** X2.  With [nfp <= 0] the loops over [range(0, nfp)] do not run and
    both expansions are empty.  [coils_via_symmetries] asserts the equal
    lengths first: for lists of one length it returns the empty list, and
    for lists of different lengths it raises [AssertionError]. *)
Theorem no_field_period_no_coil
    (curves : list Curve) (currents : list CurrentBase) (nfp : Z) (stellsym : bool) :
  nfp <= 0 ->
  apply_symmetries_to_curves curves nfp stellsym = [] /\
  apply_symmetries_to_currents currents nfp stellsym = [] /\
  coils_via_symmetries curves currents nfp stellsym
  = if (length curves =? length currents)%nat then inr [] else inl AssertionError.
Proof.
  intros Hnfp. split; [|split].
  - by rewrite apply_symmetries_to_curves_eq, range_nonpos.
  - by rewrite apply_symmetries_to_currents_eq, range_nonpos.
  - destruct (Nat.eqb_spec (length curves) (length currents)) as [Hlen|Hlen].
    + by rewrite coils_via_symmetries_eq, range_nonpos.
    + unfold coils_via_symmetries.
      by apply Nat.eqb_neq in Hlen as ->.
Qed.
End CoilLayout.

(** ** Values and adjoints of currents *)
Section CurrentGradients.
Context {S : Scalar}.
Import coil.

Lemma dom_vjp (c : CurrentBase) (v : list float) : dom (vjp c v) = current_leaves c.
Proof.
  induction c as [i|c IH k|a IHa b IHb]; simpl.
  - apply dom_singleton_L.
  - unfold deriv_scale. by rewrite dom_fmap_L.
  - by rewrite dom_deriv_add, IHa, IHb.
Qed.

Lemma current_leaves_nonempty (c : CurrentBase) : current_leaves c <> ∅.
Proof.
  induction c as [i|c IH k|a IHa b IHb]; simpl; [|done|].
  - apply non_empty_singleton_L.
  - intros Hempty. apply empty_union_L in Hempty as [Ha _]. by apply IHa.
Qed.

(** X3.  The keys of what [vjp] returns are the [Current] nodes under the
    node, all of them and nothing else, whatever the cotangent and the
    scale factors (a factor of zero keeps the key); there is always at
    least one. *)
Theorem vjp_keys (c : CurrentBase) (v : list float) :
  dom (vjp c v) = current_leaves c /\ vjp c v <> ∅.
Proof.
  split; [apply dom_vjp|]. intros Hempty.
  apply (current_leaves_nonempty c). by rewrite <- (dom_vjp c v), Hempty, dom_empty_L.
Qed.

(** X4.  [Coil.vjp] reports the keys of the two curve adjoints and the
    [Current] nodes under the coil's current. *)
Theorem Coil_vjp_keys
    (dgamma_by_dcoeff_vjp dgammadash_by_dcoeff_vjp : Curve -> list vec3 -> Derivative)
    (self : Coil) (v_gamma v_gammadash : list vec3) (v_current : list float) :
  dom (Coil_vjp dgamma_by_dcoeff_vjp dgammadash_by_dcoeff_vjp self
         v_gamma v_gammadash v_current)
  = dom (dgamma_by_dcoeff_vjp (curve self) v_gamma)
    ∪ dom (dgammadash_by_dcoeff_vjp (curve self) v_gammadash)
    ∪ current_leaves (current self).
Proof. unfold Coil_vjp. by rewrite !dom_deriv_add, dom_vjp. Qed.

Lemma get_value_foldl_add (x : node_id -> float) (c : CurrentBase) (cs : list CurrentBase) :
  get_value x (foldl add c cs)
  = foldl f_add (get_value x c) (map (get_value x) cs).
Proof. revert c. induction cs as [|c' cs IH]; intros c; simpl; [done|]. by rewrite IH. Qed.

Section Exact.
Hypothesis float_ring :
  ring_theory f_zero f_one f_add f_mul f_sub f_opp (@eq float).
Add Ring float_ring_gradients : float_ring.

(** The sensitivity of [get_value] to the value of the node [i], and the
    entry of [vjp] at [i]. *)
Lemma vjp_entry (c : CurrentBase) (i : node_id) :
  exists w : float,
    (forall x h, get_value (set_value x i (f_add (x i) h)) c
                 = f_add (get_value x c) (f_mul w h)) /\
    (forall v : float,
        vjp c [v] !! i = Some [f_mul v w] \/
        (vjp c [v] !! i = None /\ w = f_zero)).
Proof.
  induction c as [j|c IH k|a IHa b IHb].
  - destruct (decide (j = i)) as [->|Hne].
    + exists f_one. split.
      * intros x h. simpl. unfold set_value. rewrite decide_True by done. ring.
      * intros v. left. simpl. rewrite lookup_singleton_eq. do 2 f_equal. ring.
    + exists f_zero. split.
      * intros x h. simpl. unfold set_value. rewrite decide_False by done. ring.
      * intros v. right. simpl. by rewrite lookup_singleton_ne.
  - destruct IH as (w & Hval & Hvjp). exists (f_mul k w). split.
    + intros x h. simpl. rewrite Hval. ring.
    + intros v. simpl. unfold deriv_scale. rewrite lookup_fmap.
      destruct (Hvjp v) as [-> | [-> ->]]; simpl.
      * left. do 2 f_equal. ring.
      * right. split; [done|ring].
  - destruct IHa as (wa & Hvala & Hvjpa), IHb as (wb & Hvalb & Hvjpb).
    exists (f_add wa wb). split.
    + intros x h. simpl. rewrite Hvala, Hvalb. ring.
    + intros v. simpl. rewrite (lookup_deriv_add float_ring).
      destruct (Hvjpa v) as [-> | [-> ->]], (Hvjpb v) as [-> | [-> ->]]; simpl.
      * left. do 2 f_equal. ring.
      * left. do 2 f_equal. ring.
      * left. do 2 f_equal. ring.
      * right. split; [done|ring].
Qed.

(** X5.  [vjp] is the gradient of [get_value]: for every node [c] and
    every [Current] node [i] there is a weight [w] such that raising the
    value of [i] by [h] raises [c.get_value()] by [w * h], and the entry
    of [c.vjp([v])] at [i] is [[v * w]]; the entry is absent only when
    the value of [c] does not depend on [i]. *)
Theorem vjp_is_gradient_of_get_value (c : CurrentBase) (i : node_id) :
  exists w : float,
    (forall x h, get_value (set_value x i (f_add (x i) h)) c
                 = f_add (get_value x c) (f_mul w h)) /\
    (forall v : float,
        vjp c [v] !! i = Some [f_mul v w] \/
        (vjp c [v] !! i = None /\ w = f_zero)) /\
    (i ∉ current_leaves c -> w = f_zero).
Proof.
  destruct (vjp_entry c i) as (w & Hval & Hvjp). exists w.
  split; [done|]. split; [done|].
  intros Hi. destruct (Hvjp f_zero) as [Hsome | [_ ->]]; [|done].
  exfalso. apply Hi. rewrite <- (dom_vjp c [f_zero]). apply elem_of_dom. by eexists.
Qed.

Lemma foldl_f_add (a : float) (l : list float) :
  foldl f_add a l = f_add a (foldr f_add f_zero l).
Proof.
  revert a. induction l as [|b l IH]; intros a; simpl; [ring|].
  rewrite IH. ring.
Qed.

Lemma foldr_f_add_snoc (l : list float) (a : float) :
  foldr f_add f_zero (l ++ [a]) = f_add (foldr f_add f_zero l) a.
Proof. induction l as [|b l IH]; simpl; [ring|]. rewrite IH. ring. Qed.

(** X6.  The value of [sum(cs)] is the sum of the values, and the list of
    currents that the example script builds, the base currents followed
    by [total_current - sum(base_currents)], has values that add up to
    the value of [total_current] under every store. *)
Theorem currents_add_up_to_total
    (x : node_id -> float) (total_current c : CurrentBase) (cs : list CurrentBase) :
  exists s l,
    py_sum (c :: cs) = Some (inr s) /\
    get_value x s = foldl f_add (get_value x c) (map (get_value x) cs) /\
    stage_two_optimization_w7x.append_last_current total_current (c :: cs) = Some l /\
    length l = Datatypes.S (length (c :: cs)) /\
    foldr f_add f_zero (map (get_value x) l) = get_value x total_current.
Proof.
  exists (foldl add c cs), ((c :: cs) ++ [sub total_current (foldl add c cs)]).
  assert (Hsum : py_sum (c :: cs) = Some (inr (foldl add c cs))).
  { unfold py_sum. simpl. apply py_sum_from_node. }
  split; [done|]. split; [apply get_value_foldl_add|].
  unfold stage_two_optimization_w7x.append_last_current. rewrite Hsum.
  split; [done|]. split; [rewrite length_app; simpl; lia|].
  rewrite map_app. cbn [map]. rewrite foldr_f_add_snoc.
  cbn [foldr get_value sub neg].
  rewrite get_value_foldl_add, foldl_f_add. ring.
Qed.
End Exact.
End CurrentGradients.

(** ** The squared-flux objective: errors and alignment *)
Section SquaredFluxEdges.
Context {S : Scalar}.
Import fluxobjective.

(** A shape that two shapes broadcast to goes together with each of them
    and stays. *)
Lemma broadcast_axis_absorbs (m n p : nat) :
  broadcast_axis m n = Some p -> broadcast_axis p m = Some p.
Proof.
  unfold broadcast_axis. intros Hp.
  destruct (Nat.eqb_spec m n) as [Hmn|Hmn];
    [|destruct (Nat.eqb_spec m 1) as [Hm1|Hm1];
      [|destruct (Nat.eqb_spec n 1) as [Hn1|Hn1]; [|done]]];
    injection Hp as <-.
  - by rewrite Nat.eqb_refl.
  - destruct (Nat.eqb_spec n m) as [Hnm|_]; [done|].
    destruct (Nat.eqb_spec n 1) as [Hn1|_]; [by rewrite Hn1, Hm1|].
    destruct (Nat.eqb_spec m 1) as [_|Hne]; done.
  - by rewrite Nat.eqb_refl.
Qed.

Lemma broadcast_shapes_absorbs (s t shp : nat * nat) :
  broadcast_shapes s t = Some shp -> broadcast_shapes shp s = Some shp.
Proof.
  unfold broadcast_shapes.
  destruct (broadcast_axis s.1 t.1) as [p|] eqn:Hp; [|done].
  destruct (broadcast_axis s.2 t.2) as [q|] eqn:Hq; [|done].
  intros [= <-]. cbn [fst snd].
  by rewrite (broadcast_axis_absorbs _ _ _ Hp), (broadcast_axis_absorbs _ _ _ Hq).
Qed.

(** An operator on two arrays fails or not by their shapes alone. *)
Lemma np_binop_shape {A B C : Type} (f : A -> B -> C) (a : ndarray A) (b : ndarray B)
    (shp : nat * nat) :
  broadcast_shapes (shape a) (shape b) = Some shp ->
  exists c, np_binop f a b = inr c /\ shape c = shp.
Proof. intros Hshp. unfold np_binop. rewrite Hshp. by eexists. Qed.

Lemma np_binop_ValueError {A B C : Type} (f : A -> B -> C) (a : ndarray A) (b : ndarray B) :
  broadcast_shapes (shape a) (shape b) = None -> np_binop f a b = inl ValueError.
Proof. intros Hshp. unfold np_binop. by rewrite Hshp. Qed.

(** The statements of [dJ] end in one of two ways. *)
Lemma dJ_outcome (call : Derivative -> SquaredFlux -> list float)
    (self : SquaredFlux) (nphi ntheta : nat) (partials : bool) :
  shape (normal (surface self)) = (nphi, ntheta) ->
  (dJ call self partials = inl ValueError /\
   (length (points (field self)) <> (nphi * ntheta)%nat \/
    exists t, target self = Some t /\
              broadcast_shapes (nphi, ntheta) (shape t) = None)) \/
  ((exists d, dJ call self partials
              = inr (if partials then Partials d else Flat (call d self))) /\
   length (points (field self)) = (nphi * ntheta)%nat /\
   forall t, target self = Some t ->
             broadcast_shapes (nphi, ntheta) (shape t) <> None).
Proof.
  intros Hshape. unfold dJ, derivative_dec.
  set (n := normal (surface self)) in *.
  destruct (np_binop_shape vec3_mul_r n (np_map (f_div f_one) (np_map vec3_norm n))
              (shape n)) as (unitn & -> & Hunitn);
    [apply broadcast_shapes_same|].
  cbn [bind]. unfold reshape. rewrite length_B, Hshape. cbn [fst snd].
  destruct (Nat.eqb_spec (length (points (field self))) (nphi * ntheta)) as [Hcount|Hcount];
    [|left; split; [done|by left]].
  cbn [bind].
  destruct (np_binop_shape vec3_dot (mkArray (nphi, ntheta) (B (field self))) unitn
              (nphi, ntheta)) as (Bcoil_n & -> & HBcoil_n).
  { cbn [shape]. rewrite Hunitn, Hshape. apply broadcast_shapes_same. }
  cbn [bind].
  assert (Hrest : forall B_n : ndarray float,
            broadcast_shapes (shape B_n) (nphi, ntheta) = Some (shape B_n) ->
            exists d,
              bind (np_binop (fun r u => vec3_scale r u) B_n unitn) (fun dJdB =>
              bind (np_binop vec3_mul_r dJdB (np_map vec3_norm n)) (fun dJdB =>
              inr (B_vjp (field self)
                     (data (np_map
                        (fun p => vec3_div_r p
                           (f_of_int (Z.of_nat (size (np_map vec3_norm n))))) dJdB)))))
              = inr d).
  { intros B_n HB_n.
    destruct (np_binop_shape (fun r u => vec3_scale r u) B_n unitn (shape B_n))
      as (dJdB & -> & HdJdB); [by rewrite Hunitn, Hshape|].
    cbn [bind].
    destruct (np_binop_shape vec3_mul_r dJdB (np_map vec3_norm n) (shape B_n))
      as (dJdB' & -> & _); [cbn [np_map shape]; by rewrite HdJdB, Hshape|].
    cbn [bind]. by eexists. }
  destruct (target self) as [t|] eqn:Htarget.
  - destruct (broadcast_shapes (nphi, ntheta) (shape t)) as [shp|] eqn:Hshp.
    + right. split; [|split; [done|]].
      * destruct (np_binop_shape f_sub Bcoil_n t shp) as (B_n & -> & HB_n);
          [by rewrite HBcoil_n|].
        cbn [bind]. destruct (Hrest B_n) as [d ->].
        { rewrite HB_n. by eapply broadcast_shapes_absorbs. }
        by eexists.
      * intros t' [= <-]. by rewrite Hshp.
    + left. split; [|right; by eexists].
      rewrite (np_binop_ValueError f_sub Bcoil_n t) by (by rewrite HBcoil_n). done.
  - right. split; [|split; [done|done]].
    cbn [bind]. destruct (Hrest Bcoil_n) as [d ->].
    { rewrite HBcoil_n. apply broadcast_shapes_same. }
    by eexists.
Qed.

(** X7.  [dJ], with or without [partials], raises [ValueError] exactly
    when the number of evaluation points of the field differs from the
    number [nphi * ntheta] of quadrature points (the reshape fails), or a
    target is given whose shape does not broadcast against
    [(nphi, ntheta)] (the subtraction fails).  Apart from the calls of
    [field.B] and [field.B_vjp], which belong to the native extension, the
    method raises nothing else. *)
Theorem dJ_ValueError_iff (call : Derivative -> SquaredFlux -> list float)
    (self : SquaredFlux) (nphi ntheta : nat) (partials : bool) :
  shape (normal (surface self)) = (nphi, ntheta) ->
  (dJ call self partials = inl ValueError <->
   length (points (field self)) <> (nphi * ntheta)%nat \/
   exists t, target self = Some t /\
             broadcast_shapes (nphi, ntheta) (shape t) = None) /\
  (forall e, dJ call self partials = inl e -> e = ValueError).
Proof.
  intros Hshape.
  destruct (dJ_outcome call self nphi ntheta partials Hshape)
    as [[Hfails Hwhy]|([d Hreturns] & Hcount & Htarget)].
  - split; [done|]. intros e. rewrite Hfails. by intros [= <-].
  - rewrite Hreturns. split; [|done]. split; [done|].
    intros [Hne|(t & Ht & Hnone)]; [done|]. by destruct (Htarget t Ht).
Qed.

(** X8.  After [SquaredFlux.__init__] the field is evaluated at the
    flattened [surface.gamma()], whatever points it had before; the
    reshape in [dJ] succeeds, and the array [Bcoil] that it yields holds at
    [[i, j]] the field at [gamma[i, j]], the point that belongs to
    [normal[i, j]]; [dJ] then fails only for a target whose shape does not
    broadcast against that of the surface. *)
Theorem init_aligns_field_with_surface (call : Derivative -> SquaredFlux -> list float)
    (surface : Surface) (field : MagneticField)
    (target : option (ndarray float)) (nphi ntheta : nat) (partials : bool) :
  array_of_shape nphi ntheta (gamma surface) ->
  array_of_shape nphi ntheta (normal surface) ->
  points (fluxobjective.field (init surface field target)) = data (gamma surface) /\
  (exists Bcoil,
     reshape (B (fluxobjective.field (init surface field target)))
             (shape (normal surface)) = inr Bcoil /\
     shape Bcoil = (nphi, ntheta) /\
     forall i j, item Bcoil i j = kernel_B field <$> item (gamma surface) i j) /\
  (dJ call (init surface field target) partials = inl ValueError <->
   exists t, target = Some t /\ broadcast_shapes (nphi, ntheta) (shape t) = None).
Proof.
  intros [Hgshape Hglen] [Hnshape Hnlen]. split; [done|]. split.
  - eexists. unfold reshape, B. cbn [init fluxobjective.field set_points points kernel_B].
    rewrite length_map, Hglen, Hnshape. cbn [fst snd]. rewrite Nat.eqb_refl.
    split; [done|]. split; [done|]. intros i j. unfold item.
    cbn [shape data]. rewrite Hgshape. cbn [snd]. by rewrite list_lookup_fmap.
  - destruct (dJ_outcome call (init surface field target) nphi ntheta partials Hnshape)
      as [[Hfails Hwhy]|([d Hreturns] & Hcount & Htarget)].
    + split; [|done]. intros _. destruct Hwhy as [Hne|Hwhy]; [|done].
      by destruct Hne.
    + rewrite Hreturns. split; [done|].
      intros (t & Ht & Hnone). by destruct (Htarget t Ht).
Qed.
End SquaredFluxEdges.

Section SquaredFluxStationary.
Context {S : Scalar}.
Import fluxobjective.
Hypothesis float_ring : ring_theory f_zero f_one f_add f_mul f_sub f_opp (@eq float).
Hypothesis div_zero : forall y : float, f_div f_zero y = f_zero.
Add Ring float_ring_stationary : float_ring.

Lemma cotangent_at_matched (N : nat) (Bp n : vec3) (t : float) :
  vec3_dot Bp (unit_normal n) = t -> cotangent_at N Bp n t = vec3_zero.
Proof.
  intros Hmatch. unfold cotangent_at, residual. rewrite Hmatch.
  replace (f_sub t t) with f_zero by ring.
  destruct (unit_normal n) as [[ux uy] uz]. unfold vec3_zero. simpl.
  replace (f_mul (f_mul f_zero ux) (vec3_norm n)) with f_zero by ring.
  replace (f_mul (f_mul f_zero uy) (vec3_norm n)) with f_zero by ring.
  replace (f_mul (f_mul f_zero uz) (vec3_norm n)) with f_zero by ring.
  by rewrite div_zero.
Qed.

Lemma cotangent_matched (N : nat) (Bs ns : list vec3) (ts : list float) :
  length Bs = length ns ->
  zip_with (fun Bp n => vec3_dot Bp (unit_normal n)) Bs ns = ts ->
  zip_with (fun bn t => cotangent_at N bn.1 bn.2 t) (zip Bs ns) ts = zeros_like Bs.
Proof.
  revert ns ts. induction Bs as [|b Bs IH]; intros [|n ns] [|t ts] Hlen Hmatch;
    simpl in *; try done.
  injection Hmatch as Ht Hts. rewrite (IH ns ts) by (done || lia).
  by rewrite cotangent_at_matched.
Qed.

(** X9.  Where the normal field [B.nhat] equals the target at every
    quadrature point (the target being zero when none was given), the
    body of [dJ], which [dJ(partials=True)] hands out, is [field.B_vjp] of
    the zero cotangent, and [dJ()] is that Derivative called on the
    object. *)
Theorem dJ_of_matched_field (call : Derivative -> SquaredFlux -> list float)
    (self : SquaredFlux) (nphi ntheta : nat) :
  array_of_shape nphi ntheta (normal (surface self)) ->
  (forall t, target self = Some t -> broadcasts_to nphi ntheta t) ->
  length (points (field self)) = (nphi * ntheta)%nat ->
  zip_with (fun Bp n => vec3_dot Bp (unit_normal n))
           (B (field self)) (data (normal (surface self)))
  = target_or_zero self ->
  dJ call self true
  = inr (Partials (B_vjp (field self) (zeros_like (B (field self))))) /\
  dJ call self false
  = inr (Flat (call (B_vjp (field self) (zeros_like (B (field self)))) self)).
Proof.
  intros Hnormal Htarget Hpoints Hmatch.
  rewrite !(dJ_flat float_ring call self nphi ntheta) by done. unfold cotangent.
  rewrite cotangent_matched; [done| |done].
  rewrite length_B, Hpoints. by destruct Hnormal as [_ ->].
Qed.
End SquaredFluxStationary.

(** ** Filament rotations: shapes, zero dofs and superposition *)
Section RotationShapes.
Context {S : Scalar}.
Import multifilament.

Lemma length_foldl_rows {J : Type} (step : list float -> J -> list float)
    (init : list float) (js : list J) :
  (forall row j, length (step row j) = length row) ->
  length (foldl step init js) = length init.
Proof.
  intros Hstep. revert init. induction js as [|j js IH]; intros init; simpl; [done|].
  by rewrite IH, Hstep.
Qed.

Lemma length_rotation_dcoeff_row (width m : nat) (p : float) :
  length (rotation_dcoeff_row width m p) = width.
Proof.
  unfold rotation_dcoeff_row. rewrite length_foldl_rows.
  - rewrite length_insert. apply repeat_length.
  - intros row j. by rewrite !length_insert.
Qed.

Lemma length_rotationdash_dcoeff_row (width m : nat) (p : float) :
  length (rotationdash_dcoeff_row width m p) = width.
Proof.
  unfold rotationdash_dcoeff_row. rewrite length_foldl_rows.
  - apply repeat_length.
  - intros row j. by rewrite !length_insert.
Qed.

(** X10.  For a dof array that holds the entries [0 .. 2*order] that the
    loops read, [alpha] and [alphadash] have one entry per quadrature
    point; the two stored matrices have one row per quadrature point and
    [2*order+1] columns. *)
Theorem rotation_shapes (dofs points : list float) (order : nat) :
  (2 * order < length dofs)%nat ->
  length (jaxrotation_pure dofs points order) = length points /\
  length (jaxrotationdash_pure dofs points order) = length points /\
  has_shape (length points) (2 * order + 1) (rotation_dcoeff points order) /\
  has_shape (length points) (2 * order + 1) (rotationdash_dcoeff points order).
Proof.
  intros _.
  rewrite jaxrotation_pure_pointwise, jaxrotationdash_pure_pointwise,
    rotation_dcoeff_pointwise, rotationdash_dcoeff_pointwise.
  rewrite !length_map. split; [done|]. split; [done|].
  split; (split; [by rewrite length_map|]); apply Forall_map, Forall_forall;
    intros p _; simpl.
  - apply length_rotation_dcoeff_row.
  - apply length_rotationdash_dcoeff_row.
Qed.

Lemma getitem_zeros (n k : nat) : getitem (zeros n) k = f_zero.
Proof. unfold getitem, zeros. apply nth_repeat. Qed.

Section Exact.
Hypothesis float_ring : ring_theory f_zero f_one f_add f_mul f_sub f_opp (@eq float).
Hypothesis of_int_opp : forall z : Z, f_of_int (- z) = f_opp (f_of_int z).
Add Ring float_ring_shapes : float_ring.

Lemma rotation_at_zeros (n m : nat) (p : float) : rotation_at (zeros n) m p = f_zero.
Proof.
  unfold rotation_at. rewrite getitem_zeros.
  assert (Hstart : f_add f_zero f_zero = f_zero) by ring.
  rewrite Hstart. clear Hstart.
  induction (orders m) as [|j js IH]; simpl; [done|].
  rewrite !getitem_zeros.
  replace (f_add (f_add f_zero (f_mul f_zero (f_sin (phase j p))))
                 (f_mul f_zero (f_cos (phase j p)))) with f_zero by ring.
  exact IH.
Qed.

Lemma rotationdash_at_zeros (n m : nat) (p : float) :
  rotationdash_at (zeros n) m p = f_zero.
Proof.
  unfold rotationdash_at.
  induction (orders m) as [|j js IH]; simpl; [done|].
  rewrite !getitem_zeros. unfold dash_factor.
  match goal with
  | |- foldl _ ?r _ = _ => replace r with f_zero by ring
  end.
  exact IH.
Qed.

(** X11.  A [FilamentRotation] is constructed with the dofs
    [np.zeros((2*order+1, ))].  In that state [alpha] and [alphadash] are
    zero at every quadrature point. *)
Theorem zero_dofs_no_rotation (full_x : node_id -> list float) (id : node_id)
    (quadpoints points : list float) (order : nat) :
  full_x id = zeros (2 * order + 1) ->
  alpha full_x (IsFilamentRotation (FilamentRotation_init id quadpoints order)) points
  = zeros (length points) /\
  alphadash full_x (IsFilamentRotation (FilamentRotation_init id quadpoints order)) points
  = zeros (length points).
Proof.
  intros Hdofs. unfold alpha, alphadash, FilamentRotation_init.
  cbn [multifilament.self multifilament.order]. rewrite Hdofs.
  rewrite jaxrotation_pure_pointwise, jaxrotationdash_pure_pointwise.
  split.
  - rewrite (map_ext _ (fun _ => f_zero)) by (intros p; apply rotation_at_zeros).
    unfold zeros. induction points as [|p l IH]; simpl; [done|]. by rewrite IH.
  - rewrite (map_ext _ (fun _ => f_zero)) by (intros p; apply rotationdash_at_zeros).
    unfold zeros. induction points as [|p l IH]; simpl; [done|]. by rewrite IH.
Qed.

Lemma dot_add_r (u c d : list float) :
  length c = length d ->
  dot u (array_add c d) = f_add (dot u c) (dot u d).
Proof.
  unfold dot, array_add. revert c d.
  induction u as [|a u IH]; intros [|x c] [|y d] Hlen; simpl in *;
    try discriminate Hlen; try ring.
  rewrite IH by lia. ring.
Qed.

Lemma dot_scale_r (u c : list float) (k : float) :
  dot u (array_scale k c) = f_mul k (dot u c).
Proof.
  unfold dot, array_scale. revert c.
  induction u as [|a u IH]; intros [|x c]; simpl; try ring.
  rewrite IH. ring.
Qed.

Lemma apply_matrix_add (jac : list (list float)) (c d : list float) :
  length c = length d ->
  apply_matrix jac (array_add c d)
  = array_add (apply_matrix jac c) (apply_matrix jac d).
Proof.
  intros Hlen. unfold apply_matrix, array_add at 2.
  rewrite zip_with_map_map. apply map_ext. intros row. by apply dot_add_r.
Qed.

Lemma apply_matrix_scale (jac : list (list float)) (c : list float) (k : float) :
  apply_matrix jac (array_scale k c) = array_scale k (apply_matrix jac c).
Proof.
  unfold apply_matrix, array_scale at 2. rewrite map_map.
  apply map_ext. intros row. apply dot_scale_r.
Qed.

(** X12.  Superposition: for two dof arrays of the [2*order+1] entries of
    the rotation, [alpha] and [alphadash] of the sum are the sums, and
    [alpha] and [alphadash] of a multiple are the multiples. *)
Theorem rotation_superposition (c d points : list float) (order : nat) (k : float) :
  length c = (2 * order + 1)%nat -> length d = (2 * order + 1)%nat ->
  jaxrotation_pure (array_add c d) points order
  = array_add (jaxrotation_pure c points order) (jaxrotation_pure d points order) /\
  jaxrotationdash_pure (array_add c d) points order
  = array_add (jaxrotationdash_pure c points order)
              (jaxrotationdash_pure d points order) /\
  jaxrotation_pure (array_scale k c) points order
  = array_scale k (jaxrotation_pure c points order) /\
  jaxrotationdash_pure (array_scale k c) points order
  = array_scale k (jaxrotationdash_pure c points order).
Proof.
  intros Hc Hd.
  assert (Hcd : length (array_add c d) = (2 * order + 1)%nat).
  { unfold array_add. rewrite length_zip_with. lia. }
  assert (Hkc : length (array_scale k c) = (2 * order + 1)%nat).
  { unfold array_scale. by rewrite length_map. }
  rewrite !(jaxrotation_pure_linear float_ring) by done.
  rewrite !(jaxrotationdash_pure_linear float_ring of_int_opp) by done.
  rewrite !apply_matrix_add by congruence.
  by rewrite !apply_matrix_scale.
Qed.
End Exact.
End RotationShapes.

(** ** The shifted curve and its frame *)
Section ShiftedCurve.
Context {S : Scalar}.
Import multifilament.

(** X13.  Constructed with a [FilamentRotation], the wrapper lists the
    curve and the rotation as its dependencies, and the keys of
    [dgamma_by_dcoeff_vjp] and of [dgammadash_by_dcoeff_vjp] are the keys
    reported by the base curve together with the rotation node, which is
    always among them. *)
Theorem rotation_receives_gradient
    (jax : FrameAdjoints) (full_x : node_id -> list float)
    (c : Curve) (dn db : float) (r : FilamentRotation) (v : list vec3) :
  let self := CurveShiftedRotated_init c dn db (Some r) in
  depends_on self = [inl c; inr r] /\
  (exists vg vgd,
      dom (dgamma_by_dcoeff_vjp jax full_x self v)
      = dom (curve_dgamma_by_dcoeff_vjp c vg)
        ∪ dom (curve_dgammadash_by_dcoeff_vjp c vgd)
        ∪ {[ multifilament.self r ]}) /\
  (exists vg vgd vgdd,
      dom (dgammadash_by_dcoeff_vjp jax full_x self v)
      = dom (curve_dgamma_by_dcoeff_vjp c vg)
        ∪ dom (curve_dgammadash_by_dcoeff_vjp c vgd)
        ∪ dom (curve_dgammadashdash_by_dcoeff_vjp c vgdd)
        ∪ {[ multifilament.self r ]}) /\
  multifilament.self r ∈ dom (dgamma_by_dcoeff_vjp jax full_x self v) /\
  multifilament.self r ∈ dom (dgammadash_by_dcoeff_vjp jax full_x self v).
Proof.
  intros self. split; [done|].
  assert (Hg : exists vg vgd,
      dom (dgamma_by_dcoeff_vjp jax full_x self v)
      = dom (curve_dgamma_by_dcoeff_vjp c vg)
        ∪ dom (curve_dgammadash_by_dcoeff_vjp c vgd)
        ∪ {[ multifilament.self r ]}).
  { do 2 eexists. unfold dgamma_by_dcoeff_vjp. simpl.
    rewrite !dom_deriv_add, dom_singleton_L. reflexivity. }
  assert (Hgd : exists vg vgd vgdd,
      dom (dgammadash_by_dcoeff_vjp jax full_x self v)
      = dom (curve_dgamma_by_dcoeff_vjp c vg)
        ∪ dom (curve_dgammadash_by_dcoeff_vjp c vgd)
        ∪ dom (curve_dgammadashdash_by_dcoeff_vjp c vgdd)
        ∪ {[ multifilament.self r ]}).
  { do 3 eexists. unfold dgammadash_by_dcoeff_vjp. simpl.
    rewrite !dom_deriv_add, !dom_singleton_L.
    rewrite <- (assoc_L (∪) _ {[ multifilament.self r ]} {[ multifilament.self r ]}).
    rewrite (idemp_L (∪) {[ multifilament.self r ]}). reflexivity. }
  split; [done|]. split; [done|].
  destruct Hg as (vg & vgd & ->), Hgd as (vg' & vgd' & vgdd' & ->).
  split; set_solver.
Qed.

(** X14.  [gamma_impl] fails, with [AssertionError] and nothing else,
    exactly when the number of quadrature points handed in differs from
    that of the base curve or the distance of the two point sets is not
    below the tolerance; a different number of points fails whatever the
    comparison says. *)
Theorem gamma_impl_assertions
    (lt : float -> float -> bool) (tol : float) (full_x : node_id -> list float)
    (self : CurveShiftedRotated) (quadpoints : list float) :
  let c := curve self in
  (gamma_impl lt tol full_x self quadpoints = inl AssertionError <->
   length quadpoints <> length (curve_quadpoints c) \/
   lt (norm1d (zip_with f_sub quadpoints (curve_quadpoints c))) tol = false) /\
  (forall e, gamma_impl lt tol full_x self quadpoints = inl e -> e = AssertionError) /\
  (forall gamma, gamma_impl lt tol full_x self quadpoints = inr gamma ->
                 length gamma <= length (curve_gamma c))%nat.
Proof.
  intros c. unfold gamma_impl. fold c.
  destruct (Nat.eqb_spec (length quadpoints) (length (curve_quadpoints c))) as [Heq|Hne];
    simpl.
  - destruct (lt _ tol) eqn:Hlt; simpl.
    + destruct (rotated_centroid_frame (curve_gamma c) (curve_gammadash c)
                  (alpha full_x (rotation self) (curve_quadpoints c))) as [[t n] b].
      split; [split; [discriminate|intros [?|?]; done]|].
      split; [discriminate|].
      intros gamma [= <-]. unfold vec3s_add. rewrite !length_zip_with. lia.
    + split; [split; [by right|done]|]. split; [|discriminate].
      intros e Heqe. by injection Heqe as <-.
  - split; [split; [by left|done]|]. split; [|discriminate].
    intros e Heqe. by injection Heqe as <-.
Qed.

Lemma length_normalize_rows (v : list vec3) : length (normalize_rows v) = length v.
Proof. unfold normalize_rows. by rewrite length_map. Qed.

(** The arrays of the frame are as long as the shortest input. *)
Lemma length_centroid_frame (gamma gammadash : list vec3) (m : nat) :
  length gamma = m -> length gammadash = m ->
  let '(t, n, b) := centroid_frame gamma gammadash in
  length t = m /\ length n = m /\ length b = m.
Proof.
  intros Hg Hgd. unfold centroid_frame.
  rewrite !length_zip_with, !length_normalize_rows, !length_zip_with,
    !length_map, !length_normalize_rows. lia.
Qed.

Lemma rotated_centroid_frame_eq (gamma gammadash : list vec3) (alpha : list float) :
  rotated_centroid_frame gamma gammadash alpha
  = let '(t, n, b) := centroid_frame gamma gammadash in
    (t,
     zip_with (fun a nb => vec3_sub (vec3_scale (f_cos a) nb.1) (vec3_scale (f_sin a) nb.2))
              alpha (zip n b),
     zip_with (fun a nb => vec3_add (vec3_scale (f_sin a) nb.1) (vec3_scale (f_cos a) nb.2))
              alpha (zip n b)).
Proof. reflexivity. Qed.

Section Exact.
Hypothesis float_ring : ring_theory f_zero f_one f_add f_mul f_sub f_opp (@eq float).
Add Ring float_ring_frame : float_ring.

Lemma vec3s_add_zero_scaled (g l : list vec3) :
  length l = length g ->
  vec3s_add g (map (vec3_scale f_zero) l) = g.
Proof.
  unfold vec3s_add. revert l. induction g as [|[[x y] z] g IH];
    intros [|[[x' y'] z'] l] Hlen; simpl in *; try done.
  rewrite IH by lia. do 3 f_equal; ring.
Qed.

(** X15.  With offsets [dn = db = 0], and the arrays of the base curve
    and of the angle all of one length, [gamma_impl] writes the positions
    of the base curve itself whenever its two assertions pass. *)
Theorem gamma_impl_zero_offsets
    (lt : float -> float -> bool) (tol : float) (full_x : node_id -> list float)
    (self : CurveShiftedRotated) (quadpoints : list float) :
  let c := curve self in
  dn self = f_zero -> db self = f_zero ->
  length quadpoints = length (curve_quadpoints c) ->
  lt (norm1d (zip_with f_sub quadpoints (curve_quadpoints c))) tol = true ->
  length (curve_gammadash c) = length (curve_gamma c) ->
  length (alpha full_x (rotation self) (curve_quadpoints c)) = length (curve_gamma c) ->
  gamma_impl lt tol full_x self quadpoints = inr (curve_gamma c).
Proof.
  intros c Hdn Hdb Hlen Hlt Hgd Ha. unfold gamma_impl. fold c.
  apply Nat.eqb_eq in Hlen as ->. rewrite Hlt. cbn [negb].
  rewrite rotated_centroid_frame_eq.
  pose proof (length_centroid_frame (curve_gamma c) (curve_gammadash c) _ eq_refl Hgd)
    as Hframe.
  destruct (centroid_frame (curve_gamma c) (curve_gammadash c)) as [[t n] b].
  destruct Hframe as (_ & Hn & Hb).
  rewrite Hdn, Hdb. f_equal.
  match goal with
  | |- vec3s_add (vec3s_add _ (map _ ?nn)) (map _ ?bb) = _ =>
      assert (Hnn : length nn = length (curve_gamma c))
        by (rewrite length_zip_with, length_zip_with; lia);
      assert (Hbb : length bb = length (curve_gamma c))
        by (rewrite length_zip_with, length_zip_with; lia)
  end.
  by rewrite (vec3s_add_zero_scaled (curve_gamma c)), vec3s_add_zero_scaled.
Qed.

Lemma unrotated_rows (alpha : list float) (n b : list vec3) :
  Forall (fun a => f_cos a = f_one /\ f_sin a = f_zero) alpha ->
  length alpha = length n -> length b = length n ->
  zip_with (fun a nb => vec3_sub (vec3_scale (f_cos a) nb.1) (vec3_scale (f_sin a) nb.2))
           alpha (zip n b) = n /\
  zip_with (fun a nb => vec3_add (vec3_scale (f_sin a) nb.1) (vec3_scale (f_cos a) nb.2))
           alpha (zip n b) = b.
Proof.
  intros Halpha. revert n b.
  induction Halpha as [|a alpha [Hcos Hsin] _ IH];
    intros [|[[x y] z] n] [|[[x' y'] z'] b] Hn Hb; simpl in *; try done.
  destruct (IH n b) as [-> ->]; [lia|lia|].
  rewrite Hcos, Hsin. split; do 3 f_equal; ring.
Qed.

Lemma Forall_zeros (P : float -> Prop) (m : nat) : P f_zero -> Forall P (zeros m).
Proof. intros HP. unfold zeros. induction m as [|m IH]; simpl; by constructor. Qed.

(** X16.  For angles whose cosine is one and whose sine is zero, as for
    the zero array of a [ZeroRotation] when [cos 0 = 1] and [sin 0 = 0],
    [rotated_centroid_frame] returns the centroid frame unrotated. *)
Theorem frame_not_rotated (gamma gammadash : list vec3) (alpha : list float) :
  Forall (fun a => f_cos a = f_one /\ f_sin a = f_zero) alpha ->
  length gammadash = length gamma -> length alpha = length gamma ->
  rotated_centroid_frame gamma gammadash alpha = centroid_frame gamma gammadash /\
  (f_cos f_zero = f_one -> f_sin f_zero = f_zero ->
   rotated_centroid_frame gamma gammadash (zeros (length gamma))
   = centroid_frame gamma gammadash).
Proof.
  intros Halpha Hgd Ha.
  pose proof (length_centroid_frame gamma gammadash _ eq_refl Hgd) as Hframe.
  rewrite !rotated_centroid_frame_eq.
  destruct (centroid_frame gamma gammadash) as [[t n] b].
  destruct Hframe as (_ & Hn & Hb). split.
  - destruct (unrotated_rows alpha n b) as [-> ->]; (done || lia).
  - intros Hcos Hsin.
    destruct (unrotated_rows (zeros (length gamma)) n b) as [-> ->]; try done.
    + by apply Forall_zeros.
    + unfold zeros. rewrite repeat_length. lia.
    + lia.
Qed.

Lemma rotated_back_rows (alpha : list float) (n b : list vec3) :
  (forall a, f_add (f_mul (f_cos a) (f_cos a)) (f_mul (f_sin a) (f_sin a)) = f_one) ->
  length alpha = length n -> length b = length n ->
  let nn := zip_with (fun a nb => vec3_sub (vec3_scale (f_cos a) nb.1)
                                           (vec3_scale (f_sin a) nb.2)) alpha (zip n b) in
  let bb := zip_with (fun a nb => vec3_add (vec3_scale (f_sin a) nb.1)
                                           (vec3_scale (f_cos a) nb.2)) alpha (zip n b) in
  zip_with (fun a p => vec3_add (vec3_scale (f_cos a) p.1) (vec3_scale (f_sin a) p.2))
           alpha (zip nn bb) = n /\
  zip_with (fun a p => vec3_sub (vec3_scale (f_cos a) p.2) (vec3_scale (f_sin a) p.1))
           alpha (zip nn bb) = b.
Proof.
  intros Hpyth. simpl. revert n b.
  assert (Hback : forall a u w : float,
             f_add (f_mul (f_cos a) (f_sub (f_mul (f_cos a) u) (f_mul (f_sin a) w)))
                   (f_mul (f_sin a) (f_add (f_mul (f_sin a) u) (f_mul (f_cos a) w)))
             = u).
  { intros a u w.
    transitivity (f_mul (f_add (f_mul (f_cos a) (f_cos a)) (f_mul (f_sin a) (f_sin a))) u);
      [ring|]. rewrite Hpyth. ring. }
  assert (Hback' : forall a u w : float,
             f_sub (f_mul (f_cos a) (f_add (f_mul (f_sin a) u) (f_mul (f_cos a) w)))
                   (f_mul (f_sin a) (f_sub (f_mul (f_cos a) u) (f_mul (f_sin a) w)))
             = w).
  { intros a u w.
    transitivity (f_mul (f_add (f_mul (f_cos a) (f_cos a)) (f_mul (f_sin a) (f_sin a))) w);
      [ring|]. rewrite Hpyth. ring. }
  induction alpha as [|a alpha IH];
    intros [|[[x y] z] n] [|[[x' y'] z'] b] Hn Hb; simpl in *; try done.
  destruct (IH n b) as [-> ->]; [lia|lia|].
  by rewrite !Hback, !Hback'.
Qed.

(** X17.  The tangent is not touched by the rotation, and when
    [cos^2 + sin^2 = 1] the rotation of the normal and binormal is undone
    by the opposite rotation: [cos a * nn + sin a * bb] is the normal and
    [cos a * bb - sin a * nn] the binormal of the centroid frame. *)
Theorem frame_rotation_undone (gamma gammadash : list vec3) (alpha : list float) :
  (forall a, f_add (f_mul (f_cos a) (f_cos a)) (f_mul (f_sin a) (f_sin a)) = f_one) ->
  length gammadash = length gamma -> length alpha = length gamma ->
  let '(t, nn, bb) := rotated_centroid_frame gamma gammadash alpha in
  let '(t0, n, b) := centroid_frame gamma gammadash in
  t = t0 /\
  zip_with (fun a p => vec3_add (vec3_scale (f_cos a) p.1) (vec3_scale (f_sin a) p.2))
           alpha (zip nn bb) = n /\
  zip_with (fun a p => vec3_sub (vec3_scale (f_cos a) p.2) (vec3_scale (f_sin a) p.1))
           alpha (zip nn bb) = b.
Proof.
  intros Hpyth Hgd Ha.
  pose proof (length_centroid_frame gamma gammadash _ eq_refl Hgd) as Hframe.
  rewrite rotated_centroid_frame_eq.
  destruct (centroid_frame gamma gammadash) as [[t n] b].
  destruct Hframe as (_ & Hn & Hb). split; [done|].
  apply rotated_back_rows; (done || lia).
Qed.
End Exact.
End ShiftedCurve.

(** ** Degrees of freedom under the symmetry expansion *)
Section ExpansionDofs.
Context {S : Scalar}.
Import coil.

Lemma current_leaves_copy (flip : bool) (c : CurrentBase) :
  current_leaves (current_copy flip c) = current_leaves c.
Proof. by destruct flip. Qed.

Lemma elem_of_apply_symmetries_to_currents
    (base_currents : list CurrentBase) (nfp : Z) (stellsym : bool) (c' : CurrentBase) :
  c' ∈ apply_symmetries_to_currents base_currents nfp stellsym <->
  exists k flip c,
    k ∈ range nfp /\ flip ∈ flip_list stellsym /\ c ∈ base_currents /\
    c' = current_copy flip c.
Proof.
  rewrite apply_symmetries_to_currents_eq, list_elem_of_In, in_flat_map.
  split.
  - intros (k & Hk & Hin). apply in_flat_map in Hin as (flip & Hflip & Hin).
    apply in_map_iff in Hin as (c & <- & Hc).
    exists k, flip, c. by rewrite !list_elem_of_In.
  - intros (k & flip & c & Hk & Hflip & Hc & ->).
    exists k. split; [by apply list_elem_of_In|].
    apply in_flat_map. exists flip. split; [by apply list_elem_of_In|].
    apply in_map_iff. exists c. split; [done|by apply list_elem_of_In].
Qed.

(** X18.  The symmetry expansion adds no degree of freedom: for
    [nfp >= 1] the [Current] nodes under the expanded currents are the
    [Current] nodes under the base currents. *)
Theorem expansion_keeps_current_dofs
    (base_currents : list CurrentBase) (nfp : Z) (stellsym : bool) :
  1 <= nfp ->
  ⋃ (current_leaves <$> apply_symmetries_to_currents base_currents nfp stellsym)
  = ⋃ (current_leaves <$> base_currents).
Proof.
  intros Hnfp. apply set_eq. intros i.
  rewrite !elem_of_union_list. split.
  - intros (X & HX & Hi). apply list_elem_of_fmap in HX as (c' & -> & Hc').
    apply elem_of_apply_symmetries_to_currents in Hc' as (k & flip & c & _ & _ & Hc & ->).
    exists (current_leaves c). split; [|by rewrite <- (current_leaves_copy flip)].
    apply list_elem_of_fmap. by exists c.
  - intros (X & HX & Hi). apply list_elem_of_fmap in HX as (c & -> & Hc).
    exists (current_leaves c). split; [|done].
    apply list_elem_of_fmap. exists c. split; [done|].
    apply elem_of_apply_symmetries_to_currents. exists 0, false, c.
    split; [|split; [|by split]].
    + rewrite (range_pos nfp Hnfp). apply list_elem_of_here.
    + destruct stellsym; apply list_elem_of_here.
Qed.

(** X19.  The value of a node depends on the store only through the
    [Current] nodes under it: two stores that agree on them give the same
    [get_value()]. *)
Theorem get_value_depends_on_leaves
    (x y : node_id -> float) (c : CurrentBase) :
  (forall i, i ∈ current_leaves c -> x i = y i) ->
  get_value x c = get_value y c.
Proof.
  induction c as [i|c IH k|a IHa b IHb]; intros Hagree; simpl in *.
  - apply Hagree. set_solver.
  - by rewrite IH.
  - rewrite IHa, IHb; [done| |]; intros i Hi; apply Hagree; set_solver.
Qed.
End ExpansionDofs.

(** ** The further properties at the sample objects *)
Section MoreSamples.
Import coil fluxobjective multifilament samples.

Lemma Z_div_zero : forall y : @float ZScalar, f_div f_zero y = f_zero.
Proof. intros y. apply Zdiv_0_l. Qed.

Lemma Z_pythagoras :
  forall a : @float ZScalar,
    f_add (f_mul (f_cos a) (f_cos a)) (f_mul (f_sin a) (f_sin a)) = f_one.
Proof. reflexivity. Qed.

Example gamma_impl_sample :
  gamma_impl (S := ZScalar) Z.ltb 1 rotation_dofs
    (CurveShiftedRotated_init (S := ZScalar) base_curve 2 3 None) [0; 1]
  = inr [(3, 0, -3); (0, 3, 3)] /\
  gamma_impl (S := ZScalar) Z.ltb 1 rotation_dofs shifted_by_zero [0; 1; 2] = inl AssertionError /\
  gamma_impl (S := ZScalar) Z.ltb 1 rotation_dofs shifted_by_zero [0; 5] = inl AssertionError.
Proof. repeat split; vm_compute; reflexivity. Qed.

Example dJ_without_points :
  dJ call_on_field flux_without_points true = inl ValueError /\
  dJ call_on_field flux_without_points false = inl ValueError.
Proof. split; reflexivity. Qed.

Lemma coil_at_index_witness :
  length base_curves = length base_currents /\
  0 <= 1 < 2 /\
  flip_list true !! 1%nat = Some true /\
  base_curves !! 0%nat = Some (CurveObject 1) /\
  base_currents !! 0%nat = Some (Current 3) /\
  exists coils,
    coils_via_symmetries base_curves base_currents 2 true = inr coils /\
    coils !! ((Z.to_nat 1 * length (flip_list true) + 1) * length base_curves + 0)%nat
    = Some (mkCoil (curve_copy 2 1 true (CurveObject 1)) (current_copy true (Current 3))) /\
    (true = false -> current_copy true (Current 3) = Current (S := ZScalar) 3) /\
    (true = false -> 1 <> 0 ->
     curve_copy 2 1 true (CurveObject 1)
     = RotatedCurve (S := ZScalar) (CurveObject 1) (rotation_angle 1 2) false).
Proof.
  assert (H1 : length base_curves = length base_currents) by reflexivity.
  assert (H2 : 0 <= 1 < 2) by lia.
  assert (H3 : flip_list true !! 1%nat = Some true) by reflexivity.
  assert (H4 : base_curves !! 0%nat = Some (CurveObject 1)) by reflexivity.
  assert (H5 : base_currents !! 0%nat = Some (Current 3)) by reflexivity.
  do 5 (split; [assumption|]).
  exact (coil_at_index (S := ZScalar) base_curves base_currents 2 true 1 1 0 true
           (CurveObject 1) (Current 3) H1 H2 H3 H4 H5).
Defined.

Example coils_via_symmetries_without_period :
  coils_via_symmetries base_curves base_currents 0 true = inr [] /\
  coils_via_symmetries base_curves [Current (S := ZScalar) 3] 0 true = inl AssertionError.
Proof. split; reflexivity. Qed.

Lemma no_field_period_no_coil_witness :
  0 <= 0 /\
  apply_symmetries_to_curves base_curves 0 true = [] /\
  apply_symmetries_to_currents [Current (S := ZScalar) 3] 0 true = [] /\
  coils_via_symmetries base_curves [Current (S := ZScalar) 3] 0 true
  = if (length base_curves =? length [Current (S := ZScalar) 3])%nat
    then inr [] else inl AssertionError.
Proof.
  split; [lia|].
  apply (no_field_period_no_coil (S := ZScalar) base_curves [Current 3] 0 true). lia.
Defined.

Lemma vjp_is_gradient_of_get_value_witness :
  let c : @CurrentBase ZScalar :=
    CurrentSum (Current 3) (ScaledCurrent (S := ZScalar) (Current 4) 5) in
  let i : node_id := 4%positive in
  ring_theory (@f_zero ZScalar) f_one f_add f_mul f_sub f_opp (@eq float) /\
  exists w : @float ZScalar,
    (forall x h, get_value (set_value x i (f_add (x i) h)) c
                 = f_add (get_value x c) (f_mul w h)) /\
    (forall v : @float ZScalar,
        vjp c [v] !! i = Some [f_mul v w] \/
        (vjp c [v] !! i = None /\ w = f_zero)) /\
    (i ∉ current_leaves c -> w = f_zero).
Proof.
  intros c i. split; [exact Z_float_ring|].
  exact (vjp_is_gradient_of_get_value (S := ZScalar) Z_float_ring c i).
Defined.

Lemma currents_add_up_to_total_witness :
  let x := current_values in
  let total_current : @CurrentBase ZScalar := Current 5 in
  let c : @CurrentBase ZScalar := Current 3 in
  let cs : list (@CurrentBase ZScalar) := [ScaledCurrent (S := ZScalar) (Current 4) 5] in
  ring_theory (@f_zero ZScalar) f_one f_add f_mul f_sub f_opp (@eq float) /\
  exists s l,
    py_sum (c :: cs) = Some (inr s) /\
    get_value x s = foldl f_add (get_value x c) (map (get_value x) cs) /\
    stage_two_optimization_w7x.append_last_current total_current (c :: cs) = Some l /\
    length l = Datatypes.S (length (c :: cs)) /\
    foldr f_add f_zero (map (get_value x) l) = get_value x total_current.
Proof.
  intros x total_current c cs. split; [exact Z_float_ring|].
  exact (currents_add_up_to_total (S := ZScalar) Z_float_ring x total_current c cs).
Defined.

Lemma dJ_ValueError_iff_witness :
  shape (normal (surface flux_wide_target)) = (1, 2)%nat /\
  (dJ call_on_field flux_wide_target false = inl ValueError <->
   length (points (field flux_wide_target)) <> (1 * 2)%nat \/
   exists t, target flux_wide_target = Some t /\
             broadcast_shapes (1, 2)%nat (shape t) = None) /\
  (forall e, dJ call_on_field flux_wide_target false = inl e -> e = ValueError).
Proof.
  assert (H1 : shape (normal (surface flux_wide_target)) = (1, 2)%nat) by reflexivity.
  split; [assumption|].
  exact (dJ_ValueError_iff (S := ZScalar) call_on_field flux_wide_target 1 2 false H1).
Defined.

Lemma init_aligns_field_with_surface_witness :
  array_of_shape 1 2 (gamma surface_1x2) /\
  array_of_shape 1 2 (normal surface_1x2) /\
  points (fluxobjective.field (init surface_1x2 uniform_field None))
  = data (gamma surface_1x2) /\
  (exists Bcoil,
     reshape (B (fluxobjective.field (init surface_1x2 uniform_field None)))
             (shape (normal surface_1x2)) = inr Bcoil /\
     shape Bcoil = (1, 2)%nat /\
     forall i j, item Bcoil i j = kernel_B uniform_field <$> item (gamma surface_1x2) i j) /\
  (dJ call_on_field (init surface_1x2 uniform_field None) true = inl ValueError <->
   exists t : ndarray (@float ZScalar),
     None = Some t /\ broadcast_shapes (1, 2)%nat (shape t) = None).
Proof.
  assert (H1 : array_of_shape 1 2 (gamma surface_1x2)) by (split; reflexivity).
  assert (H2 : array_of_shape 1 2 (normal surface_1x2)) by (split; reflexivity).
  do 2 (split; [assumption|]).
  exact (init_aligns_field_with_surface (S := ZScalar) call_on_field surface_1x2
           uniform_field None 1 2 true H1 H2).
Defined.

Lemma dJ_of_matched_field_witness :
  ring_theory (@f_zero ZScalar) f_one f_add f_mul f_sub f_opp (@eq float) /\
  (forall y : @float ZScalar, f_div f_zero y = f_zero) /\
  array_of_shape 1 2 (normal (surface flux_matched)) /\
  (forall t, target flux_matched = Some t -> broadcasts_to 1 2 t) /\
  length (points (field flux_matched)) = (1 * 2)%nat /\
  zip_with (fun Bp n => vec3_dot Bp (unit_normal n))
           (B (field flux_matched)) (data (normal (surface flux_matched)))
  = target_or_zero flux_matched /\
  dJ call_on_field flux_matched true
  = inr (Partials (B_vjp (field flux_matched) (zeros_like (B (field flux_matched))))) /\
  dJ call_on_field flux_matched false
  = inr (Flat (call_on_field
           (B_vjp (field flux_matched) (zeros_like (B (field flux_matched))))
           flux_matched)).
Proof.
  assert (H1 : array_of_shape 1 2 (normal (surface flux_matched)))
    by (split; reflexivity).
  assert (H2 : forall t, target flux_matched = Some t -> broadcasts_to 1 2 t).
  { intros t Ht. injection Ht as <-. split; reflexivity. }
  assert (H3 : length (points (field flux_matched)) = (1 * 2)%nat) by reflexivity.
  assert (H4 : zip_with (fun Bp n => vec3_dot Bp (unit_normal n))
                 (B (field flux_matched)) (data (normal (surface flux_matched)))
               = target_or_zero flux_matched) by reflexivity.
  split; [exact Z_float_ring|]. split; [exact Z_div_zero|].
  do 4 (split; [assumption|]).
  exact (dJ_of_matched_field (S := ZScalar) Z_float_ring Z_div_zero call_on_field
           flux_matched 1 2 H1 H2 H3 H4).
Defined.

Lemma rotation_shapes_witness :
  (2 * 1 < length [1; 2; 3])%nat /\
  length (jaxrotation_pure (S := ZScalar) [1; 2; 3] [0; 1] 1) = length [0; 1] /\
  length (jaxrotationdash_pure (S := ZScalar) [1; 2; 3] [0; 1] 1) = length [0; 1] /\
  multifilament.has_shape (S := ZScalar) 2 (2 * 1 + 1)
    (rotation_dcoeff (S := ZScalar) [0; 1] 1) /\
  multifilament.has_shape (S := ZScalar) 2 (2 * 1 + 1)
    (rotationdash_dcoeff (S := ZScalar) [0; 1] 1).
Proof.
  assert (H1 : (2 * 1 < length [1; 2; 3])%nat) by (simpl; lia).
  split; [assumption|].
  exact (rotation_shapes (S := ZScalar) [1; 2; 3] [0; 1] 1 H1).
Defined.

Lemma zero_dofs_no_rotation_witness :
  let full_x : node_id -> list (@float ZScalar) := fun _ => [0; 0; 0] in
  let r := IsFilamentRotation (FilamentRotation_init (S := ZScalar) 8 [0; 1] 1) in
  ring_theory (@f_zero ZScalar) f_one f_add f_mul f_sub f_opp (@eq float) /\
  full_x 8%positive = zeros (2 * 1 + 1) /\
  alpha full_x r [0; 1; 2] = zeros (length [0; 1; 2]) /\
  alphadash full_x r [0; 1; 2] = zeros (length [0; 1; 2]).
Proof.
  intros full_x r.
  assert (H1 : full_x 8%positive = zeros (2 * 1 + 1)) by reflexivity.
  split; [exact Z_float_ring|]. split; [assumption|].
  exact (zero_dofs_no_rotation (S := ZScalar) Z_float_ring full_x 8 [0; 1] [0; 1; 2] 1 H1).
Defined.

Lemma rotation_superposition_witness :
  let c : list (@float ZScalar) := [1; 2; 3] in
  let d : list (@float ZScalar) := [4; 5; 6] in
  let points : list (@float ZScalar) := [0; 1] in
  let k : @float ZScalar := 7 in
  ring_theory (@f_zero ZScalar) f_one f_add f_mul f_sub f_opp (@eq float) /\
  (forall z : Z, @f_of_int ZScalar (- z) = f_opp (f_of_int z)) /\
  length c = (2 * 1 + 1)%nat /\ length d = (2 * 1 + 1)%nat /\
  jaxrotation_pure (array_add c d) points 1
  = array_add (jaxrotation_pure c points 1) (jaxrotation_pure d points 1) /\
  jaxrotationdash_pure (array_add c d) points 1
  = array_add (jaxrotationdash_pure c points 1) (jaxrotationdash_pure d points 1) /\
  jaxrotation_pure (array_scale k c) points 1
  = array_scale k (jaxrotation_pure c points 1) /\
  jaxrotationdash_pure (array_scale k c) points 1
  = array_scale k (jaxrotationdash_pure c points 1).
Proof.
  intros c d points k.
  split; [exact Z_float_ring|]. split; [exact Z_of_int_opp|].
  do 2 (split; [reflexivity|]).
  exact (rotation_superposition (S := ZScalar) Z_float_ring Z_of_int_opp
           c d points 1%nat k eq_refl eq_refl).
Defined.

Lemma gamma_impl_zero_offsets_witness :
  let self := shifted_by_zero in
  let c := curve self in
  let quadpoints : list (@float ZScalar) := [0; 1] in
  ring_theory (@f_zero ZScalar) f_one f_add f_mul f_sub f_opp (@eq float) /\
  dn self = f_zero /\ db self = f_zero /\
  length quadpoints = length (curve_quadpoints c) /\
  Z.ltb (norm1d (zip_with f_sub quadpoints (curve_quadpoints c))) 1 = true /\
  length (curve_gammadash c) = length (curve_gamma c) /\
  length (alpha rotation_dofs (rotation self) (curve_quadpoints c))
  = length (curve_gamma c) /\
  gamma_impl (S := ZScalar) Z.ltb 1 rotation_dofs self quadpoints = inr (curve_gamma c).
Proof.
  intros self c quadpoints.
  split; [exact Z_float_ring|]. do 6 (split; [reflexivity|]).
  exact (gamma_impl_zero_offsets (S := ZScalar) Z_float_ring Z.ltb 1 rotation_dofs
           self quadpoints eq_refl eq_refl eq_refl eq_refl eq_refl eq_refl).
Defined.

Lemma frame_not_rotated_witness :
  let gamma : list (@vec3 ZScalar) := [(1, 0, 0); (0, 1, 0)] in
  let gammadash : list (@vec3 ZScalar) := [(0, 1, 0); (1, 0, 0)] in
  let alpha : list (@float ZScalar) := [5; 6] in
  ring_theory (@f_zero ZScalar) f_one f_add f_mul f_sub f_opp (@eq float) /\
  Forall (fun a : @float ZScalar => f_cos a = f_one /\ f_sin a = f_zero) alpha /\
  length gammadash = length gamma /\ length alpha = length gamma /\
  rotated_centroid_frame gamma gammadash alpha = centroid_frame gamma gammadash /\
  (@f_cos ZScalar f_zero = f_one -> @f_sin ZScalar f_zero = f_zero ->
   rotated_centroid_frame gamma gammadash (zeros (length gamma))
   = centroid_frame gamma gammadash).
Proof.
  intros gamma gammadash alpha.
  assert (H1 : Forall (fun a : @float ZScalar => f_cos a = f_one /\ f_sin a = f_zero) alpha)
    by (repeat constructor).
  split; [exact Z_float_ring|]. split; [assumption|].
  do 2 (split; [reflexivity|]).
  exact (frame_not_rotated (S := ZScalar) Z_float_ring gamma gammadash alpha
           H1 eq_refl eq_refl).
Defined.

Lemma frame_rotation_undone_witness :
  let gamma : list (@vec3 ZScalar) := [(1, 0, 0); (0, 1, 0)] in
  let gammadash : list (@vec3 ZScalar) := [(0, 1, 0); (1, 0, 0)] in
  let alpha : list (@float ZScalar) := [5; 6] in
  ring_theory (@f_zero ZScalar) f_one f_add f_mul f_sub f_opp (@eq float) /\
  (forall a : @float ZScalar,
      f_add (f_mul (f_cos a) (f_cos a)) (f_mul (f_sin a) (f_sin a)) = f_one) /\
  length gammadash = length gamma /\ length alpha = length gamma /\
  let '(t, nn, bb) := rotated_centroid_frame gamma gammadash alpha in
  let '(t0, n, b) := centroid_frame gamma gammadash in
  t = t0 /\
  zip_with (fun a p => vec3_add (vec3_scale (f_cos a) p.1) (vec3_scale (f_sin a) p.2))
           alpha (zip nn bb) = n /\
  zip_with (fun a p => vec3_sub (vec3_scale (f_cos a) p.2) (vec3_scale (f_sin a) p.1))
           alpha (zip nn bb) = b.
Proof.
  intros gamma gammadash alpha.
  split; [exact Z_float_ring|]. split; [exact Z_pythagoras|].
  do 2 (split; [reflexivity|]).
  exact (frame_rotation_undone (S := ZScalar) Z_float_ring gamma gammadash alpha
           Z_pythagoras eq_refl eq_refl).
Defined.

Lemma expansion_keeps_current_dofs_witness :
  1 <= 2 /\
  ⋃ (current_leaves <$> apply_symmetries_to_currents base_currents 2 true)
  = ⋃ (current_leaves <$> base_currents).
Proof.
  split; [lia|].
  apply (expansion_keeps_current_dofs (S := ZScalar) base_currents 2 true). lia.
Defined.

Lemma get_value_depends_on_leaves_witness :
  let c : @CurrentBase ZScalar :=
    CurrentSum (Current 3) (ScaledCurrent (S := ZScalar) (Current 4) 5) in
  let x := current_values in
  let y := set_value current_values 9%positive 0 in
  (forall i, i ∈ current_leaves c -> x i = y i) /\
  get_value x c = get_value y c.
Proof.
  intros c x y.
  assert (H1 : forall i, i ∈ current_leaves c -> x i = y i).
  { intros i Hi. unfold y, set_value. destruct (decide (i = 9%positive)) as [->|]; [|done].
    exfalso. revert Hi. vm_compute. intros Hi. set_solver. }
  split; [assumption|].
  exact (get_value_depends_on_leaves (S := ZScalar) x y c H1).
Defined.
End MoreSamples.
